(** * Verification of the volcano heightmap generator (tools/heightmap.py)

    The numeric stages of the generator are embedded over exact arithmetic:
    rationals ([Q]) wherever the code only adds, subtracts, multiplies and
    divides, reals ([R]) for the island falloff, whose exponent 2.5 leaves
    the rationals.  An access outside an array has no defined result and is
    the [None] of the option monad: the @njit-compiled functions do not
    check bounds (such an access reads or writes past the array), and the
    interpreted numpy calls of [main] raise.  The [prange] loop of the
    erosion simulator runs its iterations on concurrent worker threads: it
    is embedded as a pool of workers whose reads and writes of the shared
    grid interleave, beside the serial run of the same iterations. *)

From Stdlib Require Import ZArith QArith Qround Qminmax Qabs Lia Reals.
From Stdlib Require Lqa Lra.
From stdpp Require Import base option list.

Local Open Scope Q_scope.

(** ** Python primitives *)

Module Py.

(** [int(x)] on a float: truncation toward zero. *)
Definition int (x : Q) : Z := Z.quot (Qnum x) (Z.pos (Qden x)).

(** [p[i]] on a one-dimensional array inside @njit code: a negative index
    counts from the end; an index outside [-len, len) is not checked and
    has no defined result (the compiled code reads past the array). *)
Definition getitem {A} (p : list A) (i : Z) : option A :=
  let n := Z.of_nat (length p) in
  if (0 <=? i)%Z then p !! Z.to_nat i
  else if (0 <=? i + n)%Z then p !! Z.to_nat (i + n)
  else None.

(** [x > y] on floats. *)
Definition gt (x y : Q) : bool := negb (Qle_bool x y).

(** A loop [for a in l: s = body(s, a)] whose body may have no defined
    result. *)
Fixpoint for_each {S A} (body : S -> A -> option S) (l : list A) (s : S)
  : option S :=
  match l with
  | [] => Some s
  | a :: l' => s' ← body s a; for_each body l' s'
  end.

(** [range(lo, hi)] for [lo >= 0]; empty when [hi <= lo]. *)
Definition range (lo hi : nat) : list nat := seq lo (hi - lo).

End Py.

(** ** The gradient noise primitive *)

Module Noise.

Definition fade (t : Q) : Q := t * t * t * (t * (t * 6 - 15) + 10).

Definition lerp (t a b : Q) : Q := a + t * (b - a).

Definition grad (hash_val : Z) (x y : Q) : Q :=
  let h := Z.land hash_val 15 in
  let u := if (h <? 8)%Z then x else y in
  let v := if (h <? 4)%Z then y
           else if ((h =? 12) || (h =? 14))%Z then x else 0 in
  (if (Z.land h 1 =? 0)%Z then u else - u)
  + (if (Z.land h 2 =? 0)%Z then v else - v).

(** The lattice cell and the offset inside it, lines 37 and 38. *)
Definition cell_index (x : Q) : Z := Z.land (Py.int x) 255.
Definition cell_offset (x : Q) : Q := x - inject_Z (Py.int x).

Definition perlin_noise (x y : Q) (perm_table : list Z) : option Q :=
  let xi := cell_index x in
  let yi := cell_index y in
  let xf := cell_offset x in
  let yf := cell_offset y in
  let u := fade xf in
  let v := fade yf in
  let p := perm_table in
  pxi ← Py.getitem p xi;
  aa ← Py.getitem p (pxi + yi)%Z;
  ab ← Py.getitem p (pxi + yi + 1)%Z;
  pxi1 ← Py.getitem p (xi + 1)%Z;
  ba ← Py.getitem p (pxi1 + yi)%Z;
  bb ← Py.getitem p (pxi1 + yi + 1)%Z;
  let g1 := grad aa xf yf in
  let g2 := grad ba (xf - 1) yf in
  let g3 := grad ab xf (yf - 1) in
  let g4 := grad bb (xf - 1) (yf - 1) in
  Some (lerp v (lerp u g1 g2) (lerp u g3 g4)).

(** The cell and offset as the design document words them, by flooring. *)
Definition floor_index (x : Q) : Z := (Qfloor x mod 256)%Z.
Definition floor_offset (x : Q) : Q := x - inject_Z (Qfloor x).

(** The identity permutation, doubled: a valid table to evaluate on. *)
Definition identity_table : list Z :=
  let p := map Z.of_nat (seq 0 256) in p ++ p.

End Noise.

(** ** The thermal erosion simulator *)

Module Erosion.

(** The elevation grid [world]: a list of rows.  Every index the loops
    compute is at least 0 (they start at 1), so indices are naturals and
    Python's wrap-around of negative indices never comes into play. *)
Definition getcell (world : list (list Q)) (y x : nat) : option Q :=
  row ← world !! y; row !! x.

Definition setcell (world : list (list Q)) (y x : nat) (v : Q)
  : option (list (list Q)) :=
  row ← world !! y; _ ← row !! x; Some (<[y := <[x := v]> row]> world).

(** [world.shape] *)
Definition shape (world : list (list Q)) : nat * nat :=
  (length world, match world with [] => 0%nat | row :: _ => length row end).

(** Lines 81 to 85: one neighbour of the centre [(y, x)]. *)
Definition transfer (y x : nat) (center_h talus : Q)
    (world : list (list Q)) (n : nat * nat) : option (list (list Q)) :=
  let '(ny, nx) := n in
  h ← getcell world ny nx;
  let diff := center_h - h in
  if Py.gt diff talus then
    let move_amount := diff / 4 in
    c ← getcell world y x;
    world ← setcell world y x (c - move_amount);
    h' ← getcell world ny nx;
    setcell world ny nx (h' + move_amount)
  else Some world.

Definition neighbors (y x : nat) : list (nat * nat) :=
  [(y, x - 1); (y, x + 1); (y - 1, x); (y + 1, x)]%nat.

(** Lines 78 to 85: the body of the loop over [x]. *)
Definition relax (talus : Q) (y : nat) (world : list (list Q)) (x : nat)
  : option (list (list Q)) :=
  center_h ← getcell world y x;
  Py.for_each (transfer y x center_h talus) (neighbors y x) world.

Definition sweep_row (talus : Q) (width : nat) (world : list (list Q))
    (y : nat) : option (list (list Q)) :=
  Py.for_each (relax talus y) (Py.range 1 (width - 1)) world.

Definition sweep (talus : Q) (height width : nat) (world : list (list Q))
    (_ : nat) : option (list (list Q)) :=
  Py.for_each (sweep_row talus width) (Py.range 1 (height - 1)) world.

(** The iterations run one after another, as a single worker thread runs
    them.  [iterations] is a Python int: a negative count gives an empty
    loop. *)
Definition serial_erosion (world : list (list Q)) (iterations : Z)
    (talus : Q) : option (list (list Q)) :=
  let '(height, width) := shape world in
  Py.for_each (sweep talus height width)
    (Py.range 0 (Z.to_nat iterations)) world.

(** *** The parallel loop

    Under [@njit(parallel=True)] the iterations of [prange(iterations)] are
    handed out to worker threads; a worker runs the sweeps of its
    iterations in order, and the workers read and write the one shared
    array without synchronisation.  A worker is the sequence of its reads
    ([Peek]) and writes ([Poke]) of the grid, each an atomic step, each
    later operation depending on the values read before. *)
Inductive ops : Type :=
| Ret
| Peek (y x : nat) (k : Q -> ops)
| Poke (y x : nat) (v : Q) (k : ops).

(** Lines 81 to 85 as memory operations, followed by [k]. *)
Definition transfer_ops (y x : nat) (center_h talus : Q) (n : nat * nat)
    (k : ops) : ops :=
  let '(ny, nx) := n in
  Peek ny nx (fun h =>
    let diff := center_h - h in
    if Py.gt diff talus then
      let move_amount := diff / 4 in
      Peek y x (fun c =>
        Poke y x (c - move_amount)
          (Peek ny nx (fun h' => Poke ny nx (h' + move_amount) k)))
    else k).

Definition relax_ops (talus : Q) (y x : nat) (k : ops) : ops :=
  Peek y x (fun center_h =>
    foldr (transfer_ops y x center_h talus) k (neighbors y x)).

Definition sweep_row_ops (talus : Q) (width y : nat) (k : ops) : ops :=
  foldr (relax_ops talus y) k (Py.range 1 (width - 1)).

Definition sweep_ops (talus : Q) (height width : nat) (k : ops) : ops :=
  foldr (sweep_row_ops talus width) k (Py.range 1 (height - 1)).

(** A worker that was handed [n] iterations. *)
Fixpoint worker (talus : Q) (height width n : nat) : ops :=
  match n with
  | O => Ret
  | S n' => sweep_ops talus height width (worker talus height width n')
  end.

(** One memory operation of a worker on the shared grid. *)
Definition step (world : list (list Q)) (p : ops)
  : option (ops * list (list Q)) :=
  match p with
  | Ret => Some (Ret, world)
  | Peek y x k => v ← getcell world y x; Some (k v, world)
  | Poke y x v k => world' ← setcell world y x v; Some (k, world')
  end.

(** The workers of [pool] take steps in the order [picks] names them; a
    pick of a worker that has finished, or of none, does nothing. *)
Fixpoint run (picks : list nat) (pool : list ops) (world : list (list Q))
  : option (list ops * list (list Q)) :=
  match picks with
  | [] => Some (pool, world)
  | i :: picks' =>
      match pool !! i with
      | None => run picks' pool world
      | Some p =>
          pw ← step world p; run picks' (<[i := pw.1]> pool) pw.2
      end
  end.

(** One worker run to its end on its own. *)
Fixpoint exec (p : ops) (world : list (list Q)) : option (list (list Q)) :=
  match p with
  | Ret => Some world
  | Peek y x k => v ← getcell world y x; exec (k v) world
  | Poke y x v k => world' ← setcell world y x v; exec k world'
  end.

(** [world'] is a grid the function can return: the iterations are split
    into chunks, one per worker, and some interleaving of the workers'
    operations, run until every worker has finished, leaves [world']. *)
Definition apply_thermal_erosion (world : list (list Q)) (iterations : Z)
    (talus : Q) (world' : list (list Q)) : Prop :=
  exists (chunks : list nat) (picks : list nat),
    sum_list chunks = Z.to_nat iterations /\
    run picks (map (worker talus (shape world).1 (shape world).2) chunks) world
    = Some (map (fun _ => Ret) chunks, world').

(** A worker keeps the invariant [I] of the shared grid, whatever the
    other workers do within [I]: each read succeeds on every grid in [I],
    the rest is safe for every value that can be read, and each write
    leads from [I] into [I]. *)
Fixpoint safe (I : list (list Q) -> Prop) (p : ops) : Prop :=
  match p with
  | Ret => True
  | Peek y x k =>
      forall world, I world ->
        exists v, getcell world y x = Some v /\ safe I (k v)
  | Poke y x v k =>
      (forall world, I world ->
         exists world', setcell world y x v = Some world' /\ I world')
      /\ safe I k
  end.

(** A numpy array of shape [(height, width)]. *)
Definition rect (height width : nat) (world : list (list Q)) : Prop :=
  length world = height /\ Forall (fun row => length row = width) world.

(** The amount lines 82 and 83 move to a neighbour of height [h]: nothing
    when the guard fails. *)
Definition move_of (center_h talus h : Q) : Q :=
  if Py.gt (center_h - h) talus then (center_h - h) / 4 else 0.

(** What the centre gives away over the neighbours [ns], as read in
    [world]. *)
Definition outflow (center_h talus : Q) (world : list (list Q))
    (ns : list (nat * nat)) : Q :=
  foldr (fun n acc => move_of center_h talus
                        (default 0 (getcell world n.1 n.2)) + acc) 0 ns.

(** The cells the loops take as centre, the outermost ring and its corners. *)
Definition interior (height width y x : nat) : Prop :=
  (1 <= y /\ y + 1 < height /\ 1 <= x /\ x + 1 < width)%nat.

Definition on_ring (height width y x : nat) : Prop :=
  (y < height /\ x < width /\
   (y = 0 \/ y + 1 = height \/ x = 0 \/ x + 1 = width))%nat.

Definition corner (height width y x : nat) : Prop :=
  ((y = 0 \/ y + 1 = height) /\ (x = 0 \/ x + 1 = width))%nat.

(** What the simulator may do to the outermost ring between [world] and
    [world']: nothing at a corner, and with a talus threshold of at least
    0 only lift the other cells of the ring. *)
Definition ring_kept (height width : nat) (talus : Q)
    (world world' : list (list Q)) : Prop :=
  (forall y x, corner height width y x ->
     getcell world' y x = getcell world y x) /\
  (0 <= talus -> forall y x v, on_ring height width y x ->
     getcell world y x = Some v ->
     exists v', getcell world' y x = Some v' /\ v <= v').

(** The invariant of the shared grid that the ring property rests on. *)
Definition ring_inv (height width : nat) (talus : Q)
    (world0 world : list (list Q)) : Prop :=
  rect height width world /\ ring_kept height width talus world0 world.

Definition row_sum (row : list Q) : Q := foldr Qplus 0 row.
Definition grid_sum (world : list (list Q)) : Q :=
  foldr (fun row acc => row_sum row + acc) 0 world.

Definition same_sum (world world' : list (list Q)) : Prop :=
  grid_sum world' == grid_sum world.

(** Every cell of [world] lies between [lo] and [hi]. *)
Definition within (lo hi : Q) (world : list (list Q)) : Prop :=
  forall y x v, getcell world y x = Some v -> lo <= v <= hi.

(** No constraint between the grid before and after. *)
Definition unconstrained (world world' : list (list Q)) : Prop := True.

(** A centre standing above one neighbour only. *)
Definition ledge_world : list (list Q) :=
  [[1; 1; 1]; [0; 1; 1]; [1; 1; 1]].

(** A grid of two rows. *)
Definition strip_world : list (list Q) := [[1; 9; 1]; [7; 0; 3]].

(** A grid at rest: a plateau of uniform height. *)
Definition plateau_world : list (list Q) :=
  [[2; 2; 2; 2]; [2; 2; 2; 2]; [2; 2; 2; 2]; [2; 2; 2; 2]].

(** The talus threshold of the generator, and two small grids to run the
    simulator on: a single peak, and a low cell next to a high ridge. *)
Definition TALUS_ANGLE : Q := 15 # 1000.

Definition peak_world : list (list Q) :=
  [[0; 0; 0]; [0; 1; 0]; [0; 0; 0]].

Definition ridge_world : list (list Q) :=
  [[0; 0; 0; 0; 0]; [0; 1; 0; 100; 0]; [0; 0; 0; 0; 0]].

End Erosion.

(** ** The permutation table builder (lines 121 to 124) *)

Module Table.

(** What the builder uses of numpy's legacy generator: seeding, and
    [rk_interval max], which draws an index between 0 and [max] inclusive
    and advances the generator. *)
Class RandomState := {
  rk_state : Type;
  rk_seed : Z -> rk_state;
  rk_interval : nat -> rk_state -> nat * rk_state;
  rk_interval_le : forall max s, (fst (rk_interval max s) <= max)%nat
}.

Section Builder.
Context `{RandomState}.

(** [np.random.RandomState(seed)]: numpy takes an integer seed between 0
    and 2**32 - 1 and raises ValueError on any other. *)
Definition new_RandomState (seed : Z) : option rk_state :=
  if ((0 <=? seed) && (seed <? 2 ^ 32))%Z then Some (rk_seed seed) else None.

(** [np.arange(n)] *)
Definition arange (n : nat) : list Z := map Z.of_nat (seq 0 n).

(** [x[i], x[j] = x[j], x[i]] *)
Definition swap (x : list Z) (i j : nat) : option (list Z) :=
  a ← x !! i; b ← x !! j; Some (<[j := a]> (<[i := b]> x)).

(** [rng.shuffle(x)]: for i in reversed(range(1, n)), draw j in 0..i and
    swap x[i] with x[j]. *)
Definition shuffle_step (xs : list Z * rk_state) (i : nat)
  : option (list Z * rk_state) :=
  let '(j, s) := rk_interval i xs.2 in
  x ← swap xs.1 i j; Some (x, s).

Definition shuffle (x : list Z) (s : rk_state)
  : option (list Z * rk_state) :=
  Py.for_each shuffle_step (reverse (Py.range 1 (length x))) (x, s).

(** The shuffle state [xs'] holds a rearrangement of the array in [xs]. *)
Definition rearranged (xs xs' : list Z * rk_state) : Prop := xs'.1 ≡ₚ xs.1.

(** [np.stack((p, p)).flatten()] *)
Definition stack_flatten (p q : list Z) : list Z := concat [p; q].

Definition perm_table (seed : Z) : option (list Z) :=
  let p := arange 256 in
  rng ← new_RandomState seed;
  ps ← shuffle p rng;
  Some (stack_flatten ps.1 ps.1).

End Builder.

(** A table the noise primitive may be given: a permutation of 0..255
    followed by itself. *)
Definition valid_table (t : list Z) : Prop :=
  exists p, p ≡ₚ arange 256 /\ t = p ++ p.

(** A small generator to run the builder on: a linear congruential state
    reduced to the requested interval. *)
#[refine] Instance lcg : RandomState := {
  rk_state := Z;
  rk_seed seed := seed;
  rk_interval max s :=
    (Z.to_nat (s mod Z.of_nat (S max)), (s * 1103515245 + 12345) mod 2 ^ 31)%Z
}.
Proof.
  intros max s; cbn [fst].
  pose proof (Z.mod_pos_bound s (Z.of_nat (S max))); lia.
Defined.

End Table.

(** ** The island falloff (line 139) *)

Module Shape.
Local Open Scope R_scope.

Definition ISLAND_FALLOFF_STRENGTH : R := 5 / 2.
Definition ISLAND_FALLOFF_START : R := 1 / 5.

(** [np.power(b, e)] for a base [b >= 0] and an exponent [e > 0], the only
    way line 139 calls it (the base is a [np.maximum(0, _)]). *)
Definition np_power (b e : R) : R :=
  if Req_dec_T b 0 then 0 else Rpower b e.

(** Line 106: the distance of the cell at normalised coordinates
    [(xx, yy)], both in [-1, 1]. *)
Definition distance_from_center (xx yy : R) : R := sqrt (xx ^ 2 + yy ^ 2).

Definition VOLCANO_RADIUS : R := 2 / 5.
Definition VOLCANO_HEIGHT : R := 7 / 10.
Definition CALDERA_RADIUS : R := 3 / 25.
Definition CALDERA_DEPTH : R := 3 / 10.

(** Lines 109 to 117, one cell at distance [d] from the centre. *)
Definition main_cone (d : R) : R :=
  Rmax 0 (VOLCANO_HEIGHT * (1 - np_power (d / VOLCANO_RADIUS) 2)).

Definition caldera (d : R) : R :=
  Rmax 0 (CALDERA_DEPTH * (1 - np_power (d / CALDERA_RADIUS) 2)).

Definition base_volcano_shape (d : R) : R :=
  Rmax 0 (main_cone d - caldera d).

(** Line 130, one cell: the shape plus the shape scaled by the detail. *)
Definition combined_terrain (d details : R) : R :=
  base_volcano_shape d + base_volcano_shape d * details.

(** One cell of [falloff_map]. *)
Definition falloff (dist : R) : R :=
  1 - np_power
        (Rmax 0 ((dist - ISLAND_FALLOFF_START) / (1 - ISLAND_FALLOFF_START)))
        ISLAND_FALLOFF_STRENGTH.

End Shape.

(** ** The normalizer (line 144) *)

Module Normalizer.

(** The result of a float division: finite, or one of the IEEE specials
    numpy produces when the divisor is zero. *)
Inductive f64 : Type := Fin (q : Q) | PInf | NInf | NaN.

Definition np_div (a b : Q) : f64 :=
  if Qeq_bool b 0 then
    if Qeq_bool a 0 then NaN else if Qle_bool 0 a then PInf else NInf
  else Fin (a / b).

(** [a.min()] and [a.max()]: ValueError on an array without cells. *)
Definition np_min (a : list (list Q)) : option Q :=
  match concat a with
  | [] => None
  | v :: vs => Some (foldl Qmin v vs)
  end.

Definition np_max (a : list (list Q)) : option Q :=
  match concat a with
  | [] => None
  | v :: vs => Some (foldl Qmax v vs)
  end.

Definition normalize (final_terrain : list (list Q))
  : option (list (list f64)) :=
  lo ← np_min final_terrain;
  hi ← np_max final_terrain;
  Some (map (map (fun v => np_div (255 * (v - lo)) (hi - lo))) final_terrain).

Definition is_finite (v : f64) : bool :=
  match v with Fin _ => true | _ => false end.

(** A final terrain with a slope. *)
Definition sloped_terrain : list (list Q) := [[1; 2; 4]; [3; 5; 2]].

(** A perfectly flat final terrain. *)
Definition flat_terrain : list (list Q) := [[0; 0; 0]; [0; 0; 0]; [0; 0; 0]].

End Normalizer.

(** * Properties *)

(** ** Python primitives *)

Module PyFacts.

Lemma int_inject_Z (n : Z) : Py.int (inject_Z n) = n.
Proof. unfold Py.int; cbn. apply Z.quot_1_r. Qed.


Lemma int_nonneg (x : Q) : 0 <= x -> Py.int x = Qfloor x.
Proof.
  destruct x as [n d]; unfold Qle, Py.int, Qfloor; cbn; intros Hx.
  apply Z.quot_div_nonneg; lia.
Qed.

Lemma land_255 (z : Z) : Z.land z 255 = (z mod 256)%Z.
Proof. change 255%Z with (Z.ones 8). rewrite Z.land_ones by lia. reflexivity. Qed.

Lemma getitem_lookup {A} (p : list A) (i : Z) :
  (0 <= i)%Z -> Py.getitem p i = p !! Z.to_nat i.
Proof.
  intros Hi; unfold Py.getitem.
  destruct (Z.leb_spec 0 i); [reflexivity | lia].
Qed.

(** A loop whose body keeps an invariant [P] and moves the state along a
    preorder [R] runs to its end, keeps [P] and stays within [R]. *)
Lemma for_each_rel {S A} (P : S -> Prop) (R : relation S) `{!PreOrder R}
    (body : S -> A -> option S) (l : list A) :
  (forall s a, a ∈ l -> P s -> exists s', body s a = Some s' /\ P s' /\ R s s') ->
  forall s, P s -> exists s', Py.for_each body l s = Some s' /\ P s' /\ R s s'.
Proof.
  induction l as [|a l IH]; intros Hbody s Hs; cbn.
  - exists s. repeat split; [assumption | reflexivity].
  - destruct (Hbody s a) as (s1 & -> & Hs1 & R1); [left | assumption |].
    cbn. destruct (IH (fun s a Ha => Hbody s a (list_elem_of_further _ _ _ Ha)) s1 Hs1)
      as (s2 & -> & Hs2 & R2).
    exists s2. repeat split; [assumption | etransitivity; eassumption].
Qed.

End PyFacts.

(** ** The gradient noise primitive *)

Module NoiseFacts.
Import Noise Lqa.

Lemma cell_index_nonneg (x : Q) : 0 <= x -> cell_index x = floor_index x.
Proof.
  intros Hx; unfold cell_index, floor_index.
  rewrite PyFacts.land_255, PyFacts.int_nonneg by assumption. reflexivity.
Qed.

Lemma cell_offset_nonneg (x : Q) :
  0 <= x -> cell_offset x = floor_offset x /\ 0 <= cell_offset x < 1.
Proof.
  intros Hx; unfold cell_offset, floor_offset.
  rewrite PyFacts.int_nonneg by assumption. split; [reflexivity|].
  pose proof (Qfloor_le x). pose proof (Qlt_floor x) as Hlt.
  rewrite inject_Z_plus in Hlt. change (inject_Z 1) with 1 in Hlt. lra.
Qed.

Lemma cell_index_range (x : Q) : (0 <= cell_index x < 256)%Z.
Proof.
  unfold cell_index. rewrite PyFacts.land_255. apply Z.mod_pos_bound. lia.
Qed.

Lemma cell_offset_inject_Z (n : Z) : cell_offset (inject_Z n) == 0.
Proof. unfold cell_offset. rewrite PyFacts.int_inject_Z. ring. Qed.


(** *** The table lookups of a valid table stay inside the table *)

Lemma valid_table_lookup (t : list Z) (i : Z) :
  Table.valid_table t -> (0 <= i < 512)%Z ->
  exists v, Py.getitem t i = Some v /\ (0 <= v < 256)%Z.
Proof.
  intros (p & Hp & ->) Hi.
  assert (Hlen : length p = 256%nat).
  { rewrite Hp. unfold Table.arange. rewrite length_map, length_seq. reflexivity. }
  rewrite PyFacts.getitem_lookup by lia.
  destruct ((p ++ p) !! Z.to_nat i) as [v|] eqn:Hv.
  - exists v; split; [reflexivity|].
    assert (Hin : v ∈ p).
    { apply list_elem_of_lookup_2 in Hv. rewrite elem_of_app in Hv. tauto. }
    rewrite Hp in Hin. unfold Table.arange in Hin.
    apply list_elem_of_fmap in Hin as (k & -> & Hk).
    apply elem_of_seq in Hk. lia.
  - apply lookup_ge_None in Hv. rewrite length_app in Hv. lia.
Qed.

(** The four corner hashes exist, whatever the coordinates. *)
Lemma perlin_noise_total (x y : Q) (t : list Z) :
  Table.valid_table t ->
  exists aa ab ba bb,
    perlin_noise x y t =
    Some (lerp (fade (cell_offset y))
            (lerp (fade (cell_offset x))
               (grad aa (cell_offset x) (cell_offset y))
               (grad ba (cell_offset x - 1) (cell_offset y)))
            (lerp (fade (cell_offset x))
               (grad ab (cell_offset x) (cell_offset y - 1))
               (grad bb (cell_offset x - 1) (cell_offset y - 1)))).
Proof.
  intros Ht. unfold perlin_noise.
  pose proof (cell_index_range x) as Hx. pose proof (cell_index_range y) as Hy.
  destruct (valid_table_lookup t (cell_index x) Ht) as (pxi & E & Hpxi); [lia|].
  rewrite E; clear E; cbn [mbind option_bind].
  destruct (valid_table_lookup t (pxi + cell_index y) Ht) as (aa & E & _); [lia|].
  rewrite E; clear E; cbn [mbind option_bind].
  destruct (valid_table_lookup t (pxi + cell_index y + 1) Ht) as (ab & E & _); [lia|].
  rewrite E; clear E; cbn [mbind option_bind].
  destruct (valid_table_lookup t (cell_index x + 1) Ht) as (pxi1 & E & Hpxi1); [lia|].
  rewrite E; clear E; cbn [mbind option_bind].
  destruct (valid_table_lookup t (pxi1 + cell_index y) Ht) as (ba & E & _); [lia|].
  rewrite E; clear E; cbn [mbind option_bind].
  destruct (valid_table_lookup t (pxi1 + cell_index y + 1) Ht) as (bb & E & _); [lia|].
  rewrite E; clear E; cbn [mbind option_bind].
  exists aa, ab, ba, bb. reflexivity.
Qed.

Lemma identity_table_valid : Table.valid_table identity_table.
Proof. exists (Table.arange 256). split; reflexivity. Qed.

(** *** The gradient selection *)

Lemma land_15_cases (z : Z) :
  let h := Z.land z 15 in
  (h = 0 \/ h = 1 \/ h = 2 \/ h = 3 \/ h = 4 \/ h = 5 \/ h = 6 \/ h = 7 \/
   h = 8 \/ h = 9 \/ h = 10 \/ h = 11 \/ h = 12 \/ h = 13 \/ h = 14 \/ h = 15)%Z.
Proof.
  intros h. assert (0 <= h < 16)%Z; [|lia].
  subst h. change 15%Z with (Z.ones 4). rewrite Z.land_ones by lia.
  apply Z.mod_pos_bound. lia.
Qed.

(** Whatever the hash, the gradient term is bounded by the sum of the
    magnitudes of the two offsets. *)
Lemma grad_bound (hash_val : Z) (x y A B : Q) :
  - A <= x <= A -> - B <= y <= B ->
  - (A + B) <= grad hash_val x y <= A + B.
Proof.
  intros Hx Hy. unfold grad.
  pose proof (land_15_cases hash_val) as Hh; cbv zeta in Hh.
  repeat (destruct Hh as [Hh|Hh]); rewrite Hh;
    repeat match goal with
      | |- context [Z.land ?a ?b] =>
          let v := eval vm_compute in (Z.land a b) in
          change (Z.land a b) with v
      end; cbn; lra.
Qed.




(** *** The smoothing curve on the unit interval *)

Lemma Qsquare_nonneg (a : Q) : 0 <= a * a.
Proof. nra. Qed.

Lemma fade_range (t : Q) : 0 <= t <= 1 -> 0 <= fade t <= 1.
Proof.
  intros [H0 H1]. split.
  - assert (E : fade t == t * (t * t) * (6 * ((t - (5 # 4)) * (t - (5 # 4))) + (5 # 8)))
      by (unfold fade; ring).
    rewrite E. pose proof (Qsquare_nonneg t). pose proof (Qsquare_nonneg (t - (5 # 4))).
    repeat apply Qmult_le_0_compat; lra.
  - assert (E : 1 - fade t ==
                (1 - t) * ((1 - t) * (1 - t)) * (6 * (t * t) + 3 * t + 1))
      by (unfold fade; ring).
    assert (0 <= 1 - fade t); [|lra].
    rewrite E. pose proof (Qsquare_nonneg t). pose proof (Qsquare_nonneg (1 - t)).
    repeat apply Qmult_le_0_compat; lra.
Qed.

(** With weight [fade t] on the far corner, the offsets [t] and [1 - t]
    average to at most one half. *)
Lemma fade_mix (t : Q) :
  (1 - fade t) * t + fade t * (1 - t) <= 1 # 2.
Proof.
  set (w := t * (1 - t)).
  assert (E : (1 # 2) - ((1 - fade t) * t + fade t * (1 - t)) ==
              2 * ((t - (1 # 2)) * (t - (1 # 2))) * (6 * (w * w) + 2 * w + 1))
    by (unfold fade, w; ring).
  assert (0 <= (1 # 2) - ((1 - fade t) * t + fade t * (1 - t))); [|lra].
  rewrite E.
  assert (Hq : 6 * (w * w) + 2 * w + 1 ==
               6 * ((w + (1 # 6)) * (w + (1 # 6))) + (5 # 6)) by ring.
  pose proof (Qsquare_nonneg (t - (1 # 2))). pose proof (Qsquare_nonneg (w + (1 # 6))).
  apply Qmult_le_0_compat; lra.
Qed.

Lemma scale_between (w g b : Q) :
  0 <= w -> - b <= g <= b -> - (w * b) <= w * g <= w * b.
Proof. intros Hw [Hl Hu]. nra. Qed.

(** The interpolated value for offsets inside the unit cell. *)
Lemma bilerp_bound (aa ab ba bb : Z) (xf yf : Q) :
  0 <= xf <= 1 -> 0 <= yf <= 1 ->
  -1 <= lerp (fade yf)
          (lerp (fade xf) (grad aa xf yf) (grad ba (xf - 1) yf))
          (lerp (fade xf) (grad ab xf (yf - 1)) (grad bb (xf - 1) (yf - 1)))
     <= 1.
Proof.
  intros Hx Hy.
  pose proof (fade_range xf Hx) as Hu. pose proof (fade_range yf Hy) as Hv.
  pose proof (fade_mix xf) as Mx. pose proof (fade_mix yf) as My.
  pose proof (grad_bound aa xf yf xf yf) as G1.
  pose proof (grad_bound ba (xf - 1) yf (1 - xf) yf) as G2.
  pose proof (grad_bound ab xf (yf - 1) xf (1 - yf)) as G3.
  pose proof (grad_bound bb (xf - 1) (yf - 1) (1 - xf) (1 - yf)) as G4.
  specialize (G1 ltac:(lra) ltac:(lra)). specialize (G2 ltac:(lra) ltac:(lra)).
  specialize (G3 ltac:(lra) ltac:(lra)). specialize (G4 ltac:(lra) ltac:(lra)).
  revert G1 G2 G3 G4 Mx My Hu Hv.
  generalize (grad aa xf yf) (grad ba (xf - 1) yf)
             (grad ab xf (yf - 1)) (grad bb (xf - 1) (yf - 1)).
  generalize (fade xf) (fade yf). intros u v g1 g2 g3 g4 G1 G2 G3 G4 Mx My Hu Hv.
  assert (E : lerp v (lerp u g1 g2) (lerp u g3 g4) ==
              (1 - v) * (1 - u) * g1 + (1 - v) * u * g2
              + v * (1 - u) * g3 + v * u * g4) by (unfold lerp; ring).
  rewrite E.
  assert (W1 : 0 <= (1 - v) * (1 - u)) by (apply Qmult_le_0_compat; lra).
  assert (W2 : 0 <= (1 - v) * u) by (apply Qmult_le_0_compat; lra).
  assert (W3 : 0 <= v * (1 - u)) by (apply Qmult_le_0_compat; lra).
  assert (W4 : 0 <= v * u) by (apply Qmult_le_0_compat; lra).
  pose proof (scale_between _ _ _ W1 G1) as S1.
  pose proof (scale_between _ _ _ W2 G2) as S2.
  pose proof (scale_between _ _ _ W3 G3) as S3.
  pose proof (scale_between _ _ _ W4 G4) as S4.
  assert (T : (1 - v) * (1 - u) * (xf + yf) + (1 - v) * u * (1 - xf + yf)
              + v * (1 - u) * (xf + (1 - yf)) + v * u * (1 - xf + (1 - yf))
              == ((1 - u) * xf + u * (1 - xf)) + ((1 - v) * yf + v * (1 - yf)))
    by ring.
  lra.
Qed.

(** Supporting fact for C4: on non-negative coordinates, where truncation
    and flooring agree, the noise value stays inside the unit range. *)
Lemma perlin_noise_bounded_nonneg (x y : Q) (t : list Z) :
  Table.valid_table t -> 0 <= x -> 0 <= y ->
  exists r, perlin_noise x y t = Some r /\ -1 <= r <= 1.
Proof.
  intros Ht Hx Hy.
  destruct (perlin_noise_total x y t Ht) as (aa & ab & ba & bb & ->).
  eexists; split; [reflexivity|].
  destruct (cell_offset_nonneg x Hx) as [_ Hxf].
  destruct (cell_offset_nonneg y Hy) as [_ Hyf].
  apply bilerp_bound; lra.
Qed.

(** C3, where the code departs from it: [int] truncates toward zero, so at
    x = -1/2 the code takes lattice cell 0 with offset -1/2, where flooring
    gives cell 255 with offset 1/2; the offset is not in [0, 1). *)
Theorem cell_offset_truncates_toward_zero :
  cell_index (-1 # 2) = 0%Z /\ floor_index (-1 # 2) = 255%Z /\
  cell_offset (-1 # 2) == - (1 # 2) /\ floor_offset (-1 # 2) == 1 # 2 /\
  ~ 0 <= cell_offset (-1 # 2).
Proof.
  repeat split; try reflexivity.
  intros H. vm_compute in H. apply H. reflexivity.
Qed.

(** C4, where the code departs from it: on the identity table, at
    (x, y) = (0, -1/2), the truncated offset -1/2 makes the interpolation
    weight fade(-1/2) = -19/8 and the noise value 15/8, above 1.5. *)
Theorem perlin_noise_overshoots_below_zero :
  Table.valid_table identity_table /\
  perlin_noise 0 (-1 # 2) identity_table = Some (30720 # 16384) /\
  (3 # 2) < (30720 # 16384) /\ (30720 # 16384) == 15 # 8.
Proof. split; [apply identity_table_valid | repeat split]. Qed.



End NoiseFacts.

(** ** The thermal erosion simulator *)

Module ErosionFacts.
Import Erosion Lqa.

Lemma gt_spec (x y : Q) : Py.gt x y = true <-> y < x.
Proof.
  unfold Py.gt. rewrite negb_true_iff, <- not_true_iff_false, Qle_bool_iff.
  split; [apply Qnot_le_lt | apply Qlt_not_le].
Qed.

(** *** Reading and writing one cell *)

Lemma getcell_Some (h wd : nat) (w : list (list Q)) (y x : nat) :
  rect h wd w -> (y < h)%nat -> (x < wd)%nat -> is_Some (getcell w y x).
Proof.
  intros [Hh Hw] Hy Hx. unfold getcell.
  destruct (lookup_lt_is_Some_2 w y) as [row Hrow]; [lia|].
  rewrite Hrow; cbn.
  apply lookup_lt_is_Some_2.
  rewrite Forall_lookup in Hw. rewrite (Hw _ _ Hrow). assumption.
Qed.

Lemma setcell_spec (h wd : nat) (w : list (list Q)) (y x : nat) (v : Q) :
  rect h wd w -> (y < h)%nat -> (x < wd)%nat ->
  exists w', setcell w y x v = Some w' /\ rect h wd w' /\
    getcell w' y x = Some v /\
    (forall a b, (a, b) <> (y, x) -> getcell w' a b = getcell w a b).
Proof.
  intros [Hh Hw] Hy Hx. unfold setcell.
  destruct (lookup_lt_is_Some_2 w y) as [row Hrow]; [lia|].
  pose proof Hw as Hw'. rewrite Forall_lookup in Hw'.
  pose proof (Hw' _ _ Hrow) as Hlen.
  destruct (lookup_lt_is_Some_2 row x) as [old Hold]; [lia|].
  rewrite Hrow; cbn. rewrite Hold; cbn.
  eexists; split; [reflexivity|]. repeat split.
  - rewrite length_insert. assumption.
  - apply Forall_insert; [assumption|]. rewrite length_insert. assumption.
  - unfold getcell. rewrite list_lookup_insert_eq by lia. cbn.
    apply list_lookup_insert_eq. lia.
  - intros a b Hab. unfold getcell.
    destruct (decide (a = y)) as [->|Hay].
    + rewrite list_lookup_insert_eq by lia. rewrite Hrow. cbn.
      apply list_lookup_insert_ne. congruence.
    + rewrite list_lookup_insert_ne by congruence. reflexivity.
Qed.

(** *** The sum of the grid under a write *)

Lemma row_sum_cons (q : Q) (row : list Q) :
  row_sum (q :: row) = q + row_sum row.
Proof. reflexivity. Qed.

Lemma grid_sum_cons (r : list Q) (w : list (list Q)) :
  grid_sum (r :: w) = row_sum r + grid_sum w.
Proof. reflexivity. Qed.

Lemma row_sum_insert (row : list Q) (x : nat) (old v : Q) :
  row !! x = Some old -> row_sum (<[x := v]> row) == row_sum row - old + v.
Proof.
  revert x; induction row as [|q row IH]; intros [|x] Hx; try discriminate.
  - injection Hx as ->. change (<[0%nat := v]> (old :: row)) with (v :: row).
    rewrite !row_sum_cons. ring.
  - change (<[S x := v]> (q :: row)) with (q :: <[x := v]> row).
    rewrite !row_sum_cons, (IH x Hx). ring.
Qed.

Lemma grid_sum_insert (w : list (list Q)) (y : nat) (row row' : list Q) :
  w !! y = Some row ->
  grid_sum (<[y := row']> w) == grid_sum w - row_sum row + row_sum row'.
Proof.
  revert y; induction w as [|r w IH]; intros [|y] Hy; try discriminate.
  - injection Hy as ->. change (<[0%nat := row']> (row :: w)) with (row' :: w).
    rewrite !grid_sum_cons. ring.
  - change (<[S y := row']> (r :: w)) with (r :: <[y := row']> w).
    rewrite !grid_sum_cons, (IH y Hy). ring.
Qed.

Lemma setcell_sum (w w' : list (list Q)) (y x : nat) (old v : Q) :
  setcell w y x v = Some w' -> getcell w y x = Some old ->
  grid_sum w' == grid_sum w - old + v.
Proof.
  unfold setcell, getcell. destruct (w !! y) as [row|] eqn:Hrow; cbn; [|discriminate].
  intros Hset Hold. rewrite Hold in Hset; cbn in Hset. injection Hset as <-.
  rewrite (grid_sum_insert _ _ _ _ Hrow), (row_sum_insert _ _ _ _ Hold). ring.
Qed.

(** *** One transfer (lines 81 to 85) *)

Lemma move_of_nonneg (center_h talus h : Q) :
  0 <= talus -> 0 <= move_of center_h talus h.
Proof.
  intros Ht. unfold move_of. destruct (Py.gt _ _) eqn:G; [|lra].
  apply gt_spec in G. apply Qle_shift_div_l; lra.
Qed.

Lemma move_of_treated (center_h talus h : Q) :
  talus < center_h - h -> move_of center_h talus h == (center_h - h) / 4.
Proof.
  intros Hd. unfold move_of. apply gt_spec in Hd. rewrite Hd. reflexivity.
Qed.

Lemma move_of_untreated (center_h talus h : Q) :
  center_h - h <= talus -> move_of center_h talus h == 0.
Proof.
  intros Hd. unfold move_of. destruct (Py.gt _ _) eqn:G; [|reflexivity].
  apply gt_spec in G. lra.
Qed.

Lemma transfer_spec (h wd : nat) (w : list (list Q)) (y x ny nx : nat)
    (center_h talus c hn : Q) :
  rect h wd w -> (y < h)%nat -> (x < wd)%nat -> (ny < h)%nat -> (nx < wd)%nat ->
  (ny, nx) <> (y, x) ->
  getcell w y x = Some c -> getcell w ny nx = Some hn ->
  exists w', transfer y x center_h talus w (ny, nx) = Some w' /\ rect h wd w' /\
    (exists c', getcell w' y x = Some c' /\ c' == c - move_of center_h talus hn) /\
    (exists hn', getcell w' ny nx = Some hn' /\
                 hn' == hn + move_of center_h talus hn) /\
    (forall a b, (a, b) <> (y, x) -> (a, b) <> (ny, nx) ->
                 getcell w' a b = getcell w a b) /\
    grid_sum w' == grid_sum w.
Proof.
  intros Hr Hy Hx Hny Hnx Hne Hc Hn. unfold transfer, move_of.
  rewrite Hn; cbn. destruct (Py.gt (center_h - hn) talus).
  - rewrite Hc; cbn.
    destruct (setcell_spec h wd w y x (c - (center_h - hn) / 4) Hr Hy Hx)
      as (w1 & E1 & Hr1 & Hc1 & Hf1).
    rewrite E1; cbn. rewrite (Hf1 ny nx Hne), Hn; cbn.
    destruct (setcell_spec h wd w1 ny nx (hn + (center_h - hn) / 4) Hr1 Hny Hnx)
      as (w2 & E2 & Hr2 & Hn2 & Hf2).
    exists w2. split_and!; [assumption | assumption | | | |].
    + exists (c - (center_h - hn) / 4). split; [|reflexivity].
      rewrite Hf2 by congruence. assumption.
    + exists (hn + (center_h - hn) / 4). split; [assumption | reflexivity].
    + intros a b Ha Hb. rewrite Hf2, Hf1 by assumption. reflexivity.
    + rewrite (setcell_sum _ _ _ _ _ _ E2 (eq_trans (Hf1 ny nx Hne) Hn)).
      rewrite (setcell_sum _ _ _ _ _ _ E1 Hc). ring.
  - exists w. split_and!; [reflexivity | assumption | | | | ].
    + exists c. split; [assumption | ring].
    + exists hn. split; [assumption | ring].
    + reflexivity.
    + reflexivity.
Qed.

Lemma neighbors_inv (y x : nat) (n : nat * nat) :
  n ∈ neighbors y x ->
  n = (y, x - 1)%nat \/ n = (y, x + 1)%nat \/ n = (y - 1, x)%nat \/ n = (y + 1, x)%nat.
Proof.
  unfold neighbors. rewrite !elem_of_cons, elem_of_nil. tauto.
Qed.

(** A neighbour of an interior centre lies in the grid and is not the
    centre itself. *)
Lemma neighbors_interior (h wd y x : nat) (n : nat * nat) :
  interior h wd y x -> n ∈ neighbors y x ->
  (n.1 < h)%nat /\ (n.2 < wd)%nat /\ n <> (y, x) /\ ~ corner h wd n.1 n.2.
Proof.
  intros (Hy1 & Hy2 & Hx1 & Hx2) Hn. unfold corner.
  destruct (neighbors_inv _ _ _ Hn) as [-> | [-> | [-> | ->]]]; cbn;
    (split_and!; [lia | lia | intros [=]; lia | lia]).
Qed.

(** *** From one transfer to the whole simulation *)

Section Lift.
Variables (h wd : nat) (talus : Q) (R : relation (list (list Q))).
Context `{!PreOrder R}.
Hypothesis transfer_R : forall w y x center_h n,
  rect h wd w -> interior h wd y x -> n ∈ neighbors y x ->
  exists w', transfer y x center_h talus w n = Some w' /\ rect h wd w' /\ R w w'.

Lemma relax_R (w : list (list Q)) (y x : nat) :
  rect h wd w -> interior h wd y x ->
  exists w', relax talus y w x = Some w' /\ rect h wd w' /\ R w w'.
Proof.
  intros Hr Hi. unfold relax.
  destruct (getcell_Some h wd w y x Hr) as [c ->]; [unfold interior in Hi; lia ..|].
  cbn [mbind option_bind]. apply (PyFacts.for_each_rel (rect h wd) R); [|assumption].
  intros s n Hn Hs. apply transfer_R; assumption.
Qed.

Lemma sweep_row_R (width : nat) (w : list (list Q)) (y : nat) :
  (width <= wd)%nat -> (1 <= y)%nat -> (y + 1 < h)%nat -> rect h wd w ->
  exists w', sweep_row talus width w y = Some w' /\ rect h wd w' /\ R w w'.
Proof.
  intros Hwd Hy1 Hy2 Hr. unfold sweep_row.
  apply (PyFacts.for_each_rel (rect h wd) R); [|assumption].
  intros s x Hx Hs. apply relax_R; [assumption|].
  unfold Py.range in Hx. apply elem_of_seq in Hx. unfold interior. lia.
Qed.

Lemma sweep_R (height width : nat) (w : list (list Q)) (i : nat) :
  (height <= h)%nat -> (width <= wd)%nat -> rect h wd w ->
  exists w', sweep talus height width w i = Some w' /\ rect h wd w' /\ R w w'.
Proof.
  intros Hh Hwd Hr. unfold sweep.
  apply (PyFacts.for_each_rel (rect h wd) R); [|assumption].
  intros s y Hy Hs. unfold Py.range in Hy. apply elem_of_seq in Hy.
  apply sweep_row_R; [assumption | lia | lia | assumption].
Qed.

Lemma shape_rect (w : list (list Q)) :
  rect h wd w -> ((shape w).1 <= h /\ (shape w).2 <= wd)%nat.
Proof.
  intros [Hh Hw]. unfold shape; cbn. split; [lia|].
  destruct w as [|row w]; [lia|]. apply Forall_cons in Hw as [-> _]. lia.
Qed.

Lemma erosion_R (w : list (list Q)) (iterations : Z) :
  rect h wd w ->
  exists w', serial_erosion w iterations talus = Some w' /\
             rect h wd w' /\ R w w'.
Proof.
  intros Hr. unfold serial_erosion.
  destruct (shape_rect w Hr) as [Hh Hwd].
  destruct (shape w) as [height width]; cbn in Hh, Hwd.
  apply (PyFacts.for_each_rel (rect h wd) R); [|assumption].
  intros s i _ Hs. apply sweep_R; assumption.
Qed.

End Lift.

#[local] Instance same_sum_preorder : PreOrder same_sum.
Proof.
  split; unfold same_sum.
  - intros w. reflexivity.
  - intros w1 w2 w3 H12 H23. rewrite H23. assumption.
Qed.

#[local] Instance ring_kept_preorder (h wd : nat) (talus : Q) :
  PreOrder (ring_kept h wd talus).
Proof.
  split.
  - intros w. split; [reflexivity|]. intros _ y x v _ Hv. exists v. split; [assumption | lra].
  - intros w1 w2 w3 [C12 M12] [C23 M23]. split.
    + intros y x Hc. rewrite C23, C12 by assumption. reflexivity.
    + intros Ht y x v Hring Hv.
      destruct (M12 Ht y x v Hring Hv) as (v2 & Hv2 & L12).
      destruct (M23 Ht y x v2 Hring Hv2) as (v3 & Hv3 & L23).
      exists v3. split; [assumption | lra].
Qed.

Lemma transfer_same_sum (h wd : nat) (talus : Q) (w : list (list Q))
    (y x : nat) (center_h : Q) (n : nat * nat) :
  rect h wd w -> interior h wd y x -> n ∈ neighbors y x ->
  exists w', transfer y x center_h talus w n = Some w' /\ rect h wd w' /\
             same_sum w w'.
Proof.
  intros Hr Hi Hn.
  destruct (neighbors_interior h wd y x n Hi Hn) as (Hn1 & Hn2 & Hne & _).
  destruct n as [ny nx]; cbn in Hn1, Hn2.
  pose proof Hi as (? & ? & ? & ?).
  destruct (getcell_Some h wd w y x Hr) as [c Hc]; [lia ..|].
  destruct (getcell_Some h wd w ny nx Hr) as [hn Hhn]; [lia ..|].
  destruct (transfer_spec h wd w y x ny nx center_h talus c hn Hr)
    as (w' & E & Hr' & _ & _ & _ & Hsum); [lia .. | assumption | assumption | assumption |].
  exists w'. split_and!; assumption.
Qed.

Lemma transfer_ring_kept (h wd : nat) (talus : Q) (w : list (list Q))
    (y x : nat) (center_h : Q) (n : nat * nat) :
  rect h wd w -> interior h wd y x -> n ∈ neighbors y x ->
  exists w', transfer y x center_h talus w n = Some w' /\ rect h wd w' /\
             ring_kept h wd talus w w'.
Proof.
  intros Hr Hi Hn.
  destruct (neighbors_interior h wd y x n Hi Hn) as (Hn1 & Hn2 & Hne & Hnc).
  destruct n as [ny nx]; cbn in Hn1, Hn2, Hnc.
  pose proof Hi as (? & ? & ? & ?).
  destruct (getcell_Some h wd w y x Hr) as [c Hc]; [lia ..|].
  destruct (getcell_Some h wd w ny nx Hr) as [hn Hhn]; [lia ..|].
  destruct (transfer_spec h wd w y x ny nx center_h talus c hn Hr)
    as (w' & E & Hr' & _ & (hn' & Hhn' & Ehn) & Hframe & _);
    [lia .. | assumption | assumption | assumption |].
  exists w'. split_and!; [assumption | assumption |]. split.
  - intros a b Hc'. apply Hframe.
    + unfold corner in Hc'. intros [= -> ->]. lia.
    + intros [= -> ->]. contradiction.
  - intros Ht a b v Hring Hv.
    destruct (decide ((a, b) = (ny, nx))) as [[= -> ->]|Hab].
    + exists hn'. split; [assumption|].
      rewrite Hhn in Hv. injection Hv as <-.
      pose proof (move_of_nonneg center_h talus hn Ht). lra.
    + exists v. split; [|lra]. rewrite Hframe; [assumption | | assumption].
      unfold on_ring in Hring. intros [= -> ->]. lia.
Qed.

(** *** One centre and its four neighbours (lines 78 to 85) *)

Lemma outflow_cons (center_h talus : Q) (w : list (list Q))
    (n : nat * nat) (l : list (nat * nat)) :
  outflow center_h talus w (n :: l) =
  move_of center_h talus (default 0 (getcell w n.1 n.2))
  + outflow center_h talus w l.
Proof. reflexivity. Qed.

Lemma outflow_ext (center_h talus : Q) (w w' : list (list Q))
    (l : list (nat * nat)) :
  (forall n, n ∈ l -> getcell w' n.1 n.2 = getcell w n.1 n.2) ->
  outflow center_h talus w' l = outflow center_h talus w l.
Proof.
  induction l as [|n l IH]; intros Hl; [reflexivity|].
  rewrite !outflow_cons, (Hl n) by left. rewrite IH; [reflexivity|].
  intros n' Hn'. apply Hl. right. assumption.
Qed.

Lemma transfers_values (h wd y x : nat) (center_h talus : Q) :
  (y < h)%nat -> (x < wd)%nat ->
  forall (l : list (nat * nat)) (w : list (list Q)) (c : Q),
  rect h wd w -> NoDup l -> (y, x) ∉ l ->
  (forall n, n ∈ l -> (n.1 < h)%nat /\ (n.2 < wd)%nat) ->
  getcell w y x = Some c ->
  exists w', Py.for_each (transfer y x center_h talus) l w = Some w' /\
    rect h wd w' /\
    (exists c', getcell w' y x = Some c' /\
                c' == c - outflow center_h talus w l) /\
    (forall n hn, n ∈ l -> getcell w n.1 n.2 = Some hn ->
       exists hn', getcell w' n.1 n.2 = Some hn' /\
                   hn' == hn + move_of center_h talus hn) /\
    (forall a b, (a, b) <> (y, x) -> (a, b) ∉ l ->
       getcell w' a b = getcell w a b).
Proof.
  intros Hy Hx. induction l as [|[ny nx] l IH]; intros w c Hr Hnd Hcl Hin Hc.
  - exists w. split_and!; [reflexivity | assumption | | |].
    + exists c. split; [assumption|]. cbn. ring.
    + intros n hn Hn. apply elem_of_nil in Hn. contradiction.
    + reflexivity.
  - apply NoDup_cons in Hnd as [Hnl Hnd].
    apply not_elem_of_cons in Hcl as [Hcn Hcl].
    destruct (Hin (ny, nx)) as [Hny Hnx]; [left|]. cbn in Hny, Hnx.
    destruct (getcell_Some h wd w ny nx Hr Hny Hnx) as [hn Hhn].
    destruct (transfer_spec h wd w y x ny nx center_h talus c hn Hr)
      as (w1 & E1 & Hr1 & (c1 & Hc1 & Ec1) & (hn1 & Hhn1 & Ehn1) & Hf1 & _);
      [assumption .. | congruence | assumption | assumption |].
    destruct (IH w1 c1 Hr1 Hnd Hcl) as (w' & E & Hr' & (c' & Hc' & Ec') & Hv & Hf);
      [intros n Hn; apply Hin; right; assumption | assumption |].
    assert (Hsame : forall n, n ∈ l -> getcell w1 n.1 n.2 = getcell w n.1 n.2).
    { intros [a b] Hn; cbn. apply Hf1; intros [= -> ->]; contradiction. }
    exists w'. split_and!.
    + cbn [Py.for_each]. rewrite E1. cbn [mbind option_bind]. assumption.
    + assumption.
    + exists c'. split; [assumption|].
      rewrite Ec', Ec1, (outflow_ext _ _ _ _ _ Hsame).
      rewrite outflow_cons. cbn [fst snd]. rewrite Hhn.
      change (default 0 (Some hn)) with hn. ring.
    + intros n hn0 Hn Hhn0. apply elem_of_cons in Hn as [->|Hn].
      * cbn [fst snd] in *. rewrite Hhn in Hhn0. injection Hhn0 as <-.
        exists hn1. split; [|assumption].
        rewrite Hf by (congruence || assumption). assumption.
      * apply Hv; [assumption|]. rewrite Hsame; assumption.
    + intros a b Hab Hl. apply not_elem_of_cons in Hl as [Hne Hl].
      rewrite Hf, Hf1 by assumption. reflexivity.
Qed.

Lemma neighbors_NoDup (y x : nat) :
  (1 <= y)%nat -> (1 <= x)%nat ->
  NoDup (neighbors y x) /\ (y, x) ∉ neighbors y x.
Proof.
  intros Hy Hx. unfold neighbors. split.
  - repeat (apply NoDup_cons; split); try apply NoDup_nil_2;
      rewrite ?not_elem_of_cons; split_and?; try apply not_elem_of_nil;
      intros [=]; lia.
  - rewrite !not_elem_of_cons. split_and?; try apply not_elem_of_nil;
      intros [=]; lia.
Qed.

(** C9, as the code has it: under exact arithmetic, while one interior
    centre is processed with a talus threshold of at least 0 (its height
    read once, before the four in-place transfers, and no other worker
    writing in between), the signed difference to a neighbour whose
    difference exceeded the threshold drops to at most half of what it
    was, and to exactly half when no other neighbour of that centre is
    treated. *)
Theorem relax_halves_difference (h wd : nat) (w : list (list Q))
    (y x : nat) (talus : Q) (n : nat * nat) (c hn : Q) :
  rect h wd w -> interior h wd y x -> 0 <= talus ->
  n ∈ neighbors y x ->
  getcell w y x = Some c -> getcell w n.1 n.2 = Some hn ->
  talus < c - hn ->
  exists w' c' hn', relax talus y w x = Some w' /\
    getcell w' y x = Some c' /\ getcell w' n.1 n.2 = Some hn' /\
    c' - hn' <= (c - hn) / 2 /\
    ((forall n' h', n' ∈ neighbors y x -> n' <> n ->
        getcell w n'.1 n'.2 = Some h' -> c - h' <= talus) ->
     c' - hn' == (c - hn) / 2).
Proof.
  intros Hr Hi Ht Hn Hc Hhn Hd. pose proof Hi as (Hy1 & Hy2 & Hx1 & Hx2).
  destruct (neighbors_NoDup y x Hy1 Hx1) as [Hnd Hcn].
  destruct (transfers_values h wd y x c talus ltac:(lia) ltac:(lia)
              (neighbors y x) w c Hr Hnd Hcn)
    as (w' & E & Hr' & (c' & Hc' & Ec') & Hv & _);
    [intros n' Hn'; destruct (neighbors_interior h wd y x n' Hi Hn'); tauto
    | assumption |].
  destruct (Hv n hn Hn Hhn) as (hn' & Hhn' & Ehn').
  exists w', c', hn'. split_and!; [| assumption | assumption | |].
  { unfold relax. rewrite Hc. cbn [mbind option_bind]. assumption. }
  all: destruct (getcell_Some h wd w y (x - 1) Hr) as [h1 H1]; [lia ..|];
    destruct (getcell_Some h wd w y (x + 1) Hr) as [h2 H2]; [lia ..|];
    destruct (getcell_Some h wd w (y - 1) x Hr) as [h3 H3]; [lia ..|];
    destruct (getcell_Some h wd w (y + 1) x Hr) as [h4 H4]; [lia ..|];
    assert (Eo : outflow c talus w (neighbors y x) ==
                 move_of c talus h1 + move_of c talus h2
                 + move_of c talus h3 + move_of c talus h4)
      by (unfold neighbors; rewrite !outflow_cons; cbn [fst snd];
          rewrite H1, H2, H3, H4; unfold outflow, default; cbn [foldr from_option];
          unfold Datatypes.id; ring);
    rewrite Eo in Ec'; clear Eo;
    pose proof (move_of_nonneg c talus h1 Ht);
    pose proof (move_of_nonneg c talus h2 Ht);
    pose proof (move_of_nonneg c talus h3 Ht);
    pose proof (move_of_nonneg c talus h4 Ht);
    pose proof (move_of_treated c talus hn Hd) as Hm;
    unfold Qdiv in *; change (/ 4) with (1 # 4) in *;
    change (/ 2) with (1 # 2) in *.
  - destruct (neighbors_inv _ _ _ Hn) as [-> | [-> | [-> | ->]]];
      cbn [fst snd] in Hhn; rewrite Hhn in *;
      match goal with H : Some hn = Some _ |- _ => injection H as <- end; lra.
  - intros Ho.
    assert (U : forall n' h', n' ∈ neighbors y x -> n' <> n ->
                getcell w n'.1 n'.2 = Some h' -> move_of c talus h' == 0).
    { intros n' h' Hn' Hne Hh'. apply move_of_untreated. eapply Ho; eassumption. }
    assert (I1 : (y, x - 1)%nat ∈ neighbors y x) by (unfold neighbors; rewrite !elem_of_cons; tauto).
    assert (I2 : (y, x + 1)%nat ∈ neighbors y x) by (unfold neighbors; rewrite !elem_of_cons; tauto).
    assert (I3 : (y - 1, x)%nat ∈ neighbors y x) by (unfold neighbors; rewrite !elem_of_cons; tauto).
    assert (I4 : (y + 1, x)%nat ∈ neighbors y x) by (unfold neighbors; rewrite !elem_of_cons; tauto).
    destruct (neighbors_inv _ _ _ Hn) as [-> | [-> | [-> | ->]]];
      cbn [fst snd] in Hhn; rewrite Hhn in *;
      match goal with H : Some hn = Some _ |- _ => injection H as <- end;
      repeat match goal with
        | Hi : ?n' ∈ neighbors y x, Hh : getcell w ?a ?b = Some ?h' |- _ =>
            unify n' (a, b);
            assert (move_of c talus h' == 0)
              by (apply (U (a, b) h' Hi); [intros [=]; lia | exact Hh]);
            clear Hi
        end; lra.
Qed.

Lemma relax_halves_difference_witness :
  (rect 3 3 ledge_world /\ interior 3 3 1 1 /\ 0 <= TALUS_ANGLE /\
   (1, 0)%nat ∈ neighbors 1 1 /\ TALUS_ANGLE < 1 - 0 /\
   (forall n' h', n' ∈ neighbors 1 1 -> n' <> (1, 0)%nat ->
      getcell ledge_world n'.1 n'.2 = Some h' -> 1 - h' <= TALUS_ANGLE)) /\
  exists w' c' hn', relax TALUS_ANGLE 1 ledge_world 1 = Some w' /\
    getcell w' 1 1 = Some c' /\ getcell w' 1 0 = Some hn' /\
    c' - hn' <= (1 - 0) / 2 /\ c' - hn' == (1 - 0) / 2.
Proof.
  assert (Hr : rect 3 3 ledge_world) by (split; [reflexivity | repeat constructor]).
  assert (Hi : interior 3 3 1 1) by (unfold interior; lia).
  assert (Ht : 0 <= TALUS_ANGLE) by discriminate.
  assert (Hn : (1, 0)%nat ∈ neighbors 1 1) by left.
  assert (Hd : TALUS_ANGLE < 1 - 0) by reflexivity.
  assert (Ho : forall n' h', n' ∈ neighbors 1 1 -> n' <> (1, 0)%nat ->
      getcell ledge_world n'.1 n'.2 = Some h' -> 1 - h' <= TALUS_ANGLE).
  { intros n' h' Hn' Hne.
    destruct (neighbors_inv _ _ _ Hn') as [-> | [-> | [-> | ->]]];
      [contradiction | ..]; cbn; intros [= <-]; discriminate. }
  split; [tauto|].
  destruct (relax_halves_difference 3 3 ledge_world 1 1 TALUS_ANGLE (1, 0)%nat 1 0
              Hr Hi Ht Hn eq_refl eq_refl Hd)
    as (w' & c' & hn' & E & Gc & Gn & Hle & Heq).
  exists w', c', hn'. split_and!; [assumption .. | exact (Heq Ho)].
Defined.

(** C9 as stated fails: the interior pair (1,1), (1,2) of the ridge grid
    differs by 1, above the threshold, before the sweep; the sweep first
    levels the pair (to 1/16 each) and then the ridge at (1,3) sheds a
    quarter of its height onto (1,2), leaving the cells at 1/16 and 1603/64. *)
Lemma sweep_can_widen_difference :
  exists w' a b,
    serial_erosion ridge_world 1 TALUS_ANGLE = Some w' /\
    interior 3 5 1 1 /\ interior 3 5 1 2 /\
    getcell ridge_world 1 1 = Some 1 /\ getcell ridge_world 1 2 = Some 0 /\
    TALUS_ANGLE < 1 - 0 /\
    getcell w' 1 1 = Some a /\ getcell w' 1 2 = Some b /\
    a == 1 # 16 /\ b == 1603 # 64 /\
    Qabs (1 - 0) < Qabs (a - b).
Proof.
  eexists _, _, _. split; [vm_compute; reflexivity|].
  split; [unfold interior; lia|]. split; [unfold interior; lia|].
  do 3 (split; [reflexivity|]).
  do 2 (split; [vm_compute; reflexivity|]).
  split_and!; vm_compute; reflexivity.
Qed.

(** *** One worker on its own: the serial run *)

Lemma exec_transfer_ops (y x : nat) (center_h talus : Q) (n : nat * nat)
    (k : ops) (w : list (list Q)) :
  exec (transfer_ops y x center_h talus n k) w
  = transfer y x center_h talus w n ≫= exec k.
Proof.
  destruct n as [ny nx]. unfold transfer_ops, transfer. cbn [exec].
  destruct (getcell w ny nx) as [hn|]; cbn [mbind option_bind]; [|reflexivity].
  destruct (Py.gt (center_h - hn) talus); [|reflexivity]. cbn [exec].
  destruct (getcell w y x) as [c|]; cbn [mbind option_bind]; [|reflexivity].
  destruct (setcell w y x _) as [w1|]; cbn [mbind option_bind exec]; [|reflexivity].
  destruct (getcell w1 ny nx) as [h'|]; cbn [mbind option_bind]; [|reflexivity].
  reflexivity.
Qed.

Lemma exec_foldr {A} (body_ops : A -> ops -> ops)
    (body : list (list Q) -> A -> option (list (list Q))) (l : list A) :
  (forall a k w, exec (body_ops a k) w = body w a ≫= exec k) ->
  forall k w, exec (foldr body_ops k l) w = Py.for_each body l w ≫= exec k.
Proof.
  intros Hbody k. induction l as [|a l IH]; intros w; cbn [foldr Py.for_each].
  - reflexivity.
  - rewrite Hbody. destruct (body w a) as [w1|]; cbn [mbind option_bind];
      [apply IH | reflexivity].
Qed.

Lemma exec_relax_ops (talus : Q) (y x : nat) (k : ops) (w : list (list Q)) :
  exec (relax_ops talus y x k) w = relax talus y w x ≫= exec k.
Proof.
  unfold relax_ops, relax. cbn [exec].
  destruct (getcell w y x) as [c|]; cbn [mbind option_bind]; [|reflexivity].
  apply exec_foldr. intros n k' w'. apply exec_transfer_ops.
Qed.

Lemma exec_sweep_ops (talus : Q) (height width : nat) (k : ops)
    (w : list (list Q)) (i : nat) :
  exec (sweep_ops talus height width k) w
  = sweep talus height width w i ≫= exec k.
Proof.
  unfold sweep_ops, sweep. apply exec_foldr. intros y k' w'.
  unfold sweep_row_ops, sweep_row. apply exec_foldr. intros x k'' w''.
  apply exec_relax_ops.
Qed.

Lemma for_each_sweeps (talus : Q) (height width : nat) (l l' : list nat)
    (w : list (list Q)) :
  length l = length l' ->
  Py.for_each (sweep talus height width) l w
  = Py.for_each (sweep talus height width) l' w.
Proof.
  revert l' w; induction l as [|a l IH]; intros [|a' l'] w Hlen;
    try discriminate; cbn [Py.for_each]; [reflexivity|].
  change (sweep talus height width w a') with (sweep talus height width w a).
  destruct (sweep talus height width w a) as [w1|]; cbn [mbind option_bind];
    [apply IH; cbn in Hlen; lia | reflexivity].
Qed.

Lemma exec_worker (talus : Q) (height width n : nat) (w : list (list Q)) :
  exec (worker talus height width n) w
  = Py.for_each (sweep talus height width) (Py.range 0 n) w.
Proof.
  revert w; induction n as [|n IH]; intros w; [reflexivity|].
  cbn [worker]. rewrite (exec_sweep_ops _ _ _ _ _ 0%nat).
  unfold Py.range in *. rewrite !Nat.sub_0_r in *. cbn [seq Py.for_each].
  destruct (sweep talus height width w 0) as [w1|]; cbn [mbind option_bind];
    [|reflexivity].
  rewrite IH. apply for_each_sweeps. rewrite !length_seq. reflexivity.
Qed.

(** *** The pool of workers *)

Lemma run_finished (picks : list nat) (pool : list ops) (w : list (list Q)) :
  Forall (fun p => p = Ret) pool -> run picks pool w = Some (pool, w).
Proof.
  intros Hpool. induction picks as [|i picks IH]; cbn [run]; [reflexivity|].
  destruct (pool !! i) as [p|] eqn:Hp; [|assumption].
  assert (p = Ret) as -> by (rewrite Forall_lookup in Hpool; exact (Hpool i p Hp)).
  cbn [step mbind option_bind fst snd]. rewrite list_insert_id by assumption.
  assumption.
Qed.

(** A worker that runs to its end on its own can be scheduled alone. *)
Lemma run_exec (p : ops) :
  forall (w w' : list (list Q)) (pool : list ops) (i : nat),
  exec p w = Some w' -> pool !! i = Some p ->
  exists m, run (replicate m i) pool w = Some (<[i := Ret]> pool, w').
Proof.
  induction p as [|y x k IH|y x v k IH]; intros w w' pool i He Hp.
  - injection He as <-. exists 0%nat. cbn [replicate run].
    rewrite list_insert_id by assumption. reflexivity.
  - cbn [exec] in He. destruct (getcell w y x) as [v|] eqn:Hv; [|discriminate].
    cbn [mbind option_bind] in He.
    destruct (IH v w w' (<[i := k v]> pool) i He) as [m Hm].
    { apply list_lookup_insert_eq. eapply lookup_lt_Some; eassumption. }
    exists (S m). cbn [replicate run]. rewrite Hp. cbn [step]. rewrite Hv.
    cbn [mbind option_bind fst snd]. rewrite Hm, list_insert_insert_eq. reflexivity.
  - cbn [exec] in He. destruct (setcell w y x v) as [w1|] eqn:Hw1; [|discriminate].
    cbn [mbind option_bind] in He.
    destruct (IH w1 w' (<[i := k]> pool) i He) as [m Hm].
    { apply list_lookup_insert_eq. eapply lookup_lt_Some; eassumption. }
    exists (S m). cbn [replicate run]. rewrite Hp. cbn [step]. rewrite Hw1.
    cbn [mbind option_bind fst snd]. rewrite Hm, list_insert_insert_eq. reflexivity.
Qed.

(** The serial result is one of the grids the parallel loop can return:
    the one worker takes all the iterations. *)
Lemma serial_outcome (w w' : list (list Q)) (iterations : Z) (talus : Q) :
  serial_erosion w iterations talus = Some w' ->
  apply_thermal_erosion w iterations talus w'.
Proof.
  unfold serial_erosion, apply_thermal_erosion.
  destruct (shape w) as [height width]; cbn [fst snd]. intros Hs.
  rewrite <- exec_worker in Hs.
  destruct (run_exec _ w w' [worker talus height width (Z.to_nat iterations)]
              0%nat Hs eq_refl) as [m Hm].
  exists [Z.to_nat iterations], (replicate m 0%nat).
  split; [cbn; lia | exact Hm].
Qed.

(** Every step of a safe pool keeps the invariant and the pool safe. *)
Lemma run_safe (I : list (list Q) -> Prop) (picks : list nat) :
  forall (pool : list ops) (w : list (list Q)),
  I w -> Forall (safe I) pool ->
  exists pool' w', run picks pool w = Some (pool', w') /\
                   I w' /\ Forall (safe I) pool'.
Proof.
  induction picks as [|i picks IH]; intros pool w Hw Hpool; cbn [run].
  - exists pool, w. split_and!; [reflexivity | assumption | assumption].
  - destruct (pool !! i) as [p|] eqn:Hp; [|apply IH; assumption].
    assert (Hs : safe I p) by (rewrite Forall_lookup in Hpool; eapply Hpool; eassumption).
    destruct p as [|y x k|y x v k]; cbn [step safe] in *.
    + cbn [mbind option_bind fst snd]. rewrite list_insert_id by assumption.
      apply IH; assumption.
    + destruct (Hs w Hw) as (v & -> & Hk). cbn [mbind option_bind fst snd].
      apply IH; [assumption|]. apply Forall_insert; assumption.
    + destruct Hs as [Hpoke Hk]. destruct (Hpoke w Hw) as (w1 & -> & Hw1).
      cbn [mbind option_bind fst snd].
      apply IH; [assumption|]. apply Forall_insert; assumption.
Qed.

Lemma outcome_invariant (I : list (list Q) -> Prop) (w w' : list (list Q))
    (iterations : Z) (talus : Q) :
  I w ->
  (forall n, safe I (worker talus (shape w).1 (shape w).2 n)) ->
  apply_thermal_erosion w iterations talus w' -> I w'.
Proof.
  intros Hw Hsafe (chunks & picks & _ & Hrun).
  destruct (run_safe I picks (map (worker talus (shape w).1 (shape w).2) chunks) w Hw)
    as (pool' & w1 & E & Hw1 & _).
  { apply Forall_fmap, Forall_forall. intros n _. apply Hsafe. }
  rewrite E in Hrun. injection Hrun as _ <-. assumption.
Qed.

Lemma safe_foldr {A} (I : list (list Q) -> Prop) (body : A -> ops -> ops)
    (l : list A) (k : ops) :
  (forall a k, a ∈ l -> safe I k -> safe I (body a k)) ->
  safe I k -> safe I (foldr body k l).
Proof.
  intros Hbody Hk. induction l as [|a l IH]; cbn [foldr]; [assumption|].
  apply Hbody; [left|]. apply IH. intros a' k' Ha'. apply Hbody. right. assumption.
Qed.

(** From one transfer to a worker, for an invariant that keeps the shape. *)
Section SafeWorker.
Variables (h wd : nat) (talus : Q) (I : list (list Q) -> Prop).
Hypothesis I_rect : forall w, I w -> rect h wd w.
Hypothesis transfer_safe : forall y x center_h n k,
  interior h wd y x -> n ∈ neighbors y x ->
  (exists w, I w /\ getcell w y x = Some center_h) ->
  safe I k -> safe I (transfer_ops y x center_h talus n k).

Lemma relax_ops_safe (y x : nat) (k : ops) :
  interior h wd y x -> safe I k -> safe I (relax_ops talus y x k).
Proof.
  intros Hi Hk. unfold relax_ops. cbn [safe]. intros w Hw.
  destruct (getcell_Some h wd w y x (I_rect w Hw)) as [c Hc];
    [unfold interior in Hi; lia ..|].
  exists c. split; [assumption|].
  apply safe_foldr; [|assumption]. intros n k' Hn Hk'.
  apply transfer_safe; [assumption | assumption | eauto | assumption].
Qed.

Lemma worker_safe (height width n : nat) :
  (height <= h)%nat -> (width <= wd)%nat ->
  safe I (worker talus height width n).
Proof.
  intros Hh Hwd. induction n as [|n IH]; cbn [worker]; [exact Logic.I|].
  unfold sweep_ops. apply safe_foldr; [|assumption]. intros y k Hy Hk.
  unfold sweep_row_ops. apply safe_foldr; [|assumption]. intros x k' Hx Hk'.
  unfold Py.range in Hy, Hx. apply elem_of_seq in Hy. apply elem_of_seq in Hx.
  apply relax_ops_safe; [unfold interior; lia | assumption].
Qed.

End SafeWorker.

Lemma setcell_ring_kept (h wd : nat) (talus : Q) (w0 w : list (list Q))
    (a b : nat) (v : Q) :
  ring_inv h wd talus w0 w -> (a < h)%nat -> (b < wd)%nat ->
  ~ corner h wd a b ->
  (0 <= talus -> on_ring h wd a b ->
   forall v0, getcell w0 a b = Some v0 -> v0 <= v) ->
  exists w', setcell w a b v = Some w' /\ ring_inv h wd talus w0 w'.
Proof.
  intros [Hr [Hc Hm]] Ha Hb Hnc Hv.
  destruct (setcell_spec h wd w a b v Hr Ha Hb) as (w' & E & Hr' & Hab & Hf).
  exists w'. split; [assumption|]. split; [assumption|]. split.
  - intros y x Hyx. rewrite Hf; [apply Hc; assumption|].
    intros [= -> ->]. contradiction.
  - intros Ht y x v0 Hring Hv0.
    destruct (decide ((y, x) = (a, b))) as [[= -> ->]|Hne].
    + exists v. split; [assumption|]. apply (Hv Ht Hring). assumption.
    + rewrite (Hf y x Hne). apply (Hm Ht); assumption.
Qed.

Lemma transfer_ops_ring (h wd : nat) (talus : Q) (w0 : list (list Q))
    (y x : nat) (center_h : Q) (n : nat * nat) (k : ops) :
  interior h wd y x -> n ∈ neighbors y x ->
  (exists w, ring_inv h wd talus w0 w /\ getcell w y x = Some center_h) ->
  safe (ring_inv h wd talus w0) k ->
  safe (ring_inv h wd talus w0) (transfer_ops y x center_h talus n k).
Proof.
  intros Hi Hn _ Hk.
  destruct (neighbors_interior h wd y x n Hi Hn) as (Hn1 & Hn2 & Hne & Hnc).
  destruct n as [ny nx]; cbn [fst snd] in Hn1, Hn2, Hnc.
  pose proof Hi as (Hy1 & Hy2 & Hx1 & Hx2).
  unfold transfer_ops. cbn [safe]. intros w1 [Hr1 _].
  destruct (getcell_Some h wd w1 ny nx Hr1 Hn1 Hn2) as [hn Hhn].
  exists hn. split; [assumption|].
  destruct (Py.gt (center_h - hn) talus) eqn:G; [|assumption].
  apply gt_spec in G. cbn [safe]. intros w2 [Hr2 _].
  destruct (getcell_Some h wd w2 y x Hr2) as [c Hc]; [lia ..|].
  exists c. split; [assumption|]. split.
  { intros w3 H3. apply (setcell_ring_kept h wd talus w0 w3); [assumption | lia | lia | |].
    - unfold corner. lia.
    - intros _ Hring. unfold on_ring in Hring. lia. }
  intros w4 [Hr4 [Hc4 Hm4]].
  destruct (getcell_Some h wd w4 ny nx Hr4 Hn1 Hn2) as [h' Hh'].
  exists h'. split; [assumption|]. split; [|assumption].
  intros w5 H5. apply (setcell_ring_kept h wd talus w0 w5); [assumption .. |].
  intros Ht Hring v0 Hv0.
  destruct (Hm4 Ht ny nx v0 Hring Hv0) as (v' & Hv' & Hle).
  rewrite Hh' in Hv'. injection Hv' as <-.
  assert (0 <= (center_h - hn) / 4) by (apply Qle_shift_div_l; lra). lra.
Qed.

(** C1, as the code has it: on every grid the simulator has a result (the
    serial one among them), and whichever way the workers interleave, the
    result has the shape of the input, no corner of the outermost ring is
    ever written, and with a talus threshold of at least 0 no other cell
    of the ring ends below its value on entry (they are neighbours of
    interior centres and may receive material). *)
Theorem erosion_keeps_corners (h wd : nat) (w : list (list Q))
    (iterations : Z) (talus : Q) :
  rect h wd w ->
  (exists w', serial_erosion w iterations talus = Some w' /\
              apply_thermal_erosion w iterations talus w') /\
  (forall w', apply_thermal_erosion w iterations talus w' ->
    rect h wd w' /\
    (forall y x, corner h wd y x -> getcell w' y x = getcell w y x) /\
    (0 <= talus -> forall y x v, on_ring h wd y x ->
       getcell w y x = Some v ->
       exists v', getcell w' y x = Some v' /\ v <= v')).
Proof.
  intros Hr. split.
  - destruct (erosion_R h wd talus (ring_kept h wd talus)
                (transfer_ring_kept h wd talus) w iterations Hr)
      as (w' & E & _).
    exists w'. split; [assumption | apply serial_outcome; assumption].
  - intros w' Hout.
    destruct (shape_rect h wd w Hr) as [Hh Hwd].
    destruct (outcome_invariant (ring_inv h wd talus w) w w' iterations talus)
      as (Hr' & Hc & Hm); [split; [assumption | reflexivity] | | assumption |].
    + intros n. apply (worker_safe h wd talus (ring_inv h wd talus w));
        [intros w1 [H1 _]; exact H1 | apply transfer_ops_ring | assumption ..].
    + split_and!; assumption.
Qed.

Lemma erosion_keeps_corners_witness :
  rect 3 5 ridge_world /\
  (exists w', serial_erosion ridge_world 50 TALUS_ANGLE = Some w' /\
              apply_thermal_erosion ridge_world 50 TALUS_ANGLE w') /\
  (forall w', apply_thermal_erosion ridge_world 50 TALUS_ANGLE w' ->
    rect 3 5 w' /\
    (forall y x, corner 3 5 y x -> getcell w' y x = getcell ridge_world y x) /\
    (0 <= TALUS_ANGLE -> forall y x v, on_ring 3 5 y x ->
       getcell ridge_world y x = Some v ->
       exists v', getcell w' y x = Some v' /\ v <= v')).
Proof.
  assert (Hr : rect 3 5 ridge_world) by (split; [reflexivity | repeat constructor]).
  split; [exact Hr | exact (erosion_keeps_corners 3 5 ridge_world 50 TALUS_ANGLE Hr)].
Defined.

(** C1 as stated fails: one sweep over a single peak lifts the ring cell
    above it from 0 to 1/4. *)
Lemma erosion_writes_ring :
  exists w', serial_erosion peak_world 1 TALUS_ANGLE = Some w' /\
    apply_thermal_erosion peak_world 1 TALUS_ANGLE w' /\
    on_ring 3 3 0 1 /\
    getcell peak_world 0 1 = Some 0 /\
    getcell w' 0 1 = Some (1 # 4) /\ ~ (1 # 4) == 0.
Proof.
  eexists. split; [vm_compute; reflexivity|].
  split; [apply serial_outcome; vm_compute; reflexivity|].
  split; [unfold on_ring; lia|].
  split; [reflexivity|]. split; [reflexivity|]. discriminate.
Qed.

(** Run serially, under exact arithmetic, the simulator conserves the sum
    of all cells: every transfer takes from one cell what it gives to
    another. *)
Lemma erosion_conserves_sum (h wd : nat) (w : list (list Q))
    (iterations : Z) (talus : Q) :
  rect h wd w ->
  exists w', serial_erosion w iterations talus = Some w' /\
             grid_sum w' == grid_sum w.
Proof.
  intros Hr.
  destruct (erosion_R h wd talus same_sum (transfer_same_sum h wd talus)
              w iterations Hr) as (w' & E & _ & Hs).
  exists w'. split; assumption.
Qed.

(** C2, where the code departs from it: with two iterations handed to two
    workers on the single-peak grid, the first worker reads the centre
    (1), the second worker then runs its whole sweep, and the first
    worker writes the centre back from its stale read; the sweeps end with
    a sum of 2 where the grid held 1. *)
Theorem erosion_race_changes_sum :
  exists w', apply_thermal_erosion peak_world 2 TALUS_ANGLE w' /\
    grid_sum peak_world == 1 /\ grid_sum w' == 2.
Proof.
  eexists. split_and!.
  - exists [1%nat; 1%nat],
      (replicate 3 0%nat ++ replicate 21 1%nat ++ replicate 18 0%nat).
    split; [reflexivity|].
    match goal with
    | |- ?l = _ => let r := eval vm_compute in l in change l with r
    end. reflexivity.
  - reflexivity.
  - vm_compute. reflexivity.
Qed.





End ErosionFacts.

(** ** The permutation table builder *)

Module TableFacts.
Import Table.

Lemma insert_Permutation (x : list Z) (i : nat) (v : Z) :
  (i < length x)%nat -> <[i := v]> x ≡ₚ v :: delete i x.
Proof.
  revert i; induction x as [|q x IH]; intros [|i] Hi; cbn in *; try lia.
  - reflexivity.
  - rewrite (IH i) by lia. apply Permutation_swap.
Qed.

Lemma swap_Permutation (x : list Z) (i j : nat) :
  (i < length x)%nat -> (j < length x)%nat ->
  exists x', swap x i j = Some x' /\ x' ≡ₚ x.
Proof.
  intros Hi Hj. unfold swap.
  destruct (lookup_lt_is_Some_2 x i Hi) as [a Ha].
  destruct (lookup_lt_is_Some_2 x j Hj) as [b Hb].
  rewrite Ha; cbn. rewrite Hb; cbn. eexists; split; [reflexivity|].
  destruct (decide (i = j)) as [->|Hij].
  - rewrite Ha in Hb. injection Hb as <-.
    rewrite list_insert_insert_eq, list_insert_id by assumption. reflexivity.
  - set (y := <[i := b]> x).
    assert (Hy : y !! j = Some b)
      by (unfold y; rewrite list_lookup_insert_ne by assumption; assumption).
    assert (Hly : length y = length x) by apply length_insert.
    rewrite insert_Permutation by lia.
    rewrite (delete_Permutation x i a Ha).
    apply Permutation_skip.
    apply (Permutation_cons_inv (a := b)).
    rewrite <- (delete_Permutation y j b Hy).
    unfold y. apply insert_Permutation. assumption.
Qed.

#[local] Instance rearranged_preorder `{RandomState} : PreOrder rearranged.
Proof.
  split; unfold rearranged.
  - intros xs. reflexivity.
  - intros xs1 xs2 xs3 H12 H23. rewrite H23. assumption.
Qed.

(** The shuffle runs to its end and rearranges its argument, whatever the
    generator draws. *)
Lemma shuffle_Permutation `{RandomState} (x : list Z) (s : rk_state) :
  exists x' s', shuffle x s = Some (x', s') /\ x' ≡ₚ x.
Proof.
  unfold shuffle.
  destruct (PyFacts.for_each_rel
              (fun xs : list Z * rk_state => length xs.1 = length x)
              rearranged
              shuffle_step (reverse (Py.range 1 (length x))))
    with (s := (x, s)) as ([x' s'] & E & _ & Hp).
  - intros [x1 s1] i Hi Hlen; cbn in Hlen.
    rewrite elem_of_reverse in Hi. unfold Py.range in Hi. apply elem_of_seq in Hi.
    unfold shuffle_step; cbn [fst snd].
    pose proof (rk_interval_le i s1) as Hj.
    destruct (rk_interval i s1) as [j s2]; cbn in Hj.
    destruct (swap_Permutation x1 i j) as (x2 & -> & Hp); [lia ..|].
    cbn. eexists; split; [reflexivity|]. unfold rearranged; cbn.
    split; [|assumption]. rewrite Hp. assumption.
  - reflexivity.
  - exists x', s'. split; assumption.
Qed.

Lemma arange_NoDup (n : nat) : NoDup (arange n).
Proof.
  unfold arange. apply NoDup_fmap_2; [apply Nat2Z.inj' | apply NoDup_seq].
Qed.

Lemma elem_of_arange (n : nat) (v : Z) :
  v ∈ arange n <-> (0 <= v < Z.of_nat n)%Z.
Proof.
  unfold arange. rewrite list_elem_of_fmap. split.
  - intros (k & -> & Hk). apply elem_of_seq in Hk. lia.
  - intros Hv. exists (Z.to_nat v). split; [lia|]. apply elem_of_seq. lia.
Qed.

(** C8, as the code has it: for every seed numpy accepts (0 to 2**32 - 1),
    the builder returns a 512-entry table made of a permutation of 0..255
    followed by itself, and that table is the only result for the seed. *)
Theorem perm_table_valid `{RandomState} (seed : Z) :
  (0 <= seed < 2 ^ 32)%Z ->
  exists p, perm_table seed = Some (p ++ p) /\
    p ≡ₚ arange 256 /\ NoDup p /\ length (p ++ p) = 512%nat /\
    (forall v, v ∈ p <-> (0 <= v < 256)%Z) /\
    (forall i, (i < 256)%nat -> (p ++ p) !! (i + 256)%nat = (p ++ p) !! i) /\
    valid_table (p ++ p) /\
    (forall t, perm_table seed = Some t -> t = p ++ p).
Proof.
  intros Hseed. unfold perm_table, new_RandomState.
  replace ((0 <=? seed) && (seed <? 2 ^ 32))%Z with true by lia.
  cbn [mbind option_bind].
  destruct (shuffle_Permutation (arange 256) (rk_seed seed)) as (p & s' & -> & Hp).
  cbn [mbind option_bind fst]. unfold stack_flatten, concat. rewrite app_nil_r.
  assert (Hlen : length p = 256%nat).
  { rewrite Hp. unfold arange. rewrite length_map, length_seq. reflexivity. }
  exists p. split_and!.
  - reflexivity.
  - assumption.
  - rewrite Hp. apply arange_NoDup.
  - rewrite length_app. lia.
  - intros v. rewrite Hp, elem_of_arange. lia.
  - intros i Hi. rewrite lookup_app_r by lia. rewrite lookup_app_l by lia.
    f_equal. lia.
  - exists p. split; [assumption | reflexivity].
  - intros t [= <-]. reflexivity.
Qed.

Lemma perm_table_valid_witness :
  (0 <= 42 < 2 ^ 32)%Z /\
  exists p, @perm_table lcg 42 = Some (p ++ p) /\
    p ≡ₚ arange 256 /\ NoDup p /\ length (p ++ p) = 512%nat /\
    (forall v, v ∈ p <-> (0 <= v < 256)%Z) /\
    (forall i, (i < 256)%nat -> (p ++ p) !! (i + 256)%nat = (p ++ p) !! i) /\
    valid_table (p ++ p) /\
    (forall t, @perm_table lcg 42 = Some t -> t = p ++ p).
Proof.
  assert (Hseed : (0 <= 42 < 2 ^ 32)%Z) by lia.
  split; [exact Hseed | exact (@perm_table_valid lcg 42 Hseed)].
Defined.

(** C8 as stated fails: a seed below 0 or above 2**32 - 1 is refused when
    the generator is created, so no table is built. *)
Lemma perm_table_rejects_seed :
  @perm_table lcg (-1) = None /\ @perm_table lcg (2 ^ 32) = None.
Proof. split; reflexivity. Qed.

End TableFacts.

(** ** The island falloff *)

Module ShapeFacts.
Import Shape Lra.
Local Open Scope R_scope.

Lemma np_power_nonneg (b e : R) : 0 <= np_power b e.
Proof.
  unfold np_power. destruct (Req_dec_T b 0); [lra|].
  unfold Rpower. left. apply exp_pos.
Qed.

Lemma np_power_le_1 (b e : R) : 0 <= e -> 0 <= b <= 1 -> np_power b e <= 1.
Proof.
  intros He [Hb0 Hb1]. unfold np_power. destruct (Req_dec_T b 0); [lra|].
  assert (E1 : Rpower 1 e = 1)
    by (unfold Rpower; rewrite ln_1, Rmult_0_r; apply exp_0).
  apply Rle_trans with (Rpower 1 e); [apply Rle_Rpower_l; lra | lra].
Qed.

Lemma np_power_gt_1 (b e : R) : 0 < e -> 1 < b -> 1 < np_power b e.
Proof.
  intros He Hb. unfold np_power. destruct (Req_dec_T b 0); [lra|].
  rewrite <- (Rpower_O b) at 1 by lra.
  apply Rpower_lt; assumption.
Qed.

(** The base of the power: the clamped, rescaled distance. *)
Lemma falloff_base (dist : R) :
  let base := Rmax 0 ((dist - ISLAND_FALLOFF_START) / (1 - ISLAND_FALLOFF_START)) in
  0 <= base /\ (base <= 1 <-> dist <= 1).
Proof.
  cbv zeta. unfold ISLAND_FALLOFF_START.
  replace ((dist - 1 / 5) / (1 - 1 / 5)) with ((5 * dist - 1) / 4) by field.
  unfold Rmax. destruct (Rle_dec 0 ((5 * dist - 1) / 4));
    (split; [lra | split; intros; lra]).
Qed.

Lemma falloff_strength_pos : 0 < ISLAND_FALLOFF_STRENGTH.
Proof. unfold ISLAND_FALLOFF_STRENGTH. lra. Qed.

Lemma falloff_negative (dist : R) : 1 < dist -> falloff dist < 0.
Proof.
  intros Hd. unfold falloff.
  destruct (falloff_base dist) as [Hb0 Hb]. cbv zeta in Hb0, Hb.
  set (base := Rmax 0 _) in *.
  assert (1 < base) by (destruct (Rlt_dec 1 base); [assumption | lra]).
  pose proof (np_power_gt_1 base _ falloff_strength_pos). lra.
Qed.

Lemma falloff_range (dist : R) : dist <= 1 -> 0 <= falloff dist <= 1.
Proof.
  intros Hd. unfold falloff.
  destruct (falloff_base dist) as [Hb0 Hb]. cbv zeta in Hb0, Hb.
  set (base := Rmax 0 _) in *.
  pose proof (np_power_nonneg base ISLAND_FALLOFF_STRENGTH).
  pose proof falloff_strength_pos.
  pose proof (np_power_le_1 base ISLAND_FALLOFF_STRENGTH). lra.
Qed.

(** C5, as the code has it: for a distance of at least 0 the multiplier is
    non-negative exactly up to distance 1, where it stays within [0, 1];
    beyond (the corner regions of the grid) it is negative. *)
Theorem falloff_nonneg_iff (dist : R) :
  0 <= dist ->
  (0 <= falloff dist <-> dist <= 1) /\ (dist <= 1 -> falloff dist <= 1) /\
  (1 < dist -> falloff dist < 0).
Proof.
  intros Hd. split_and!.
  - split.
    + intros Hf. destruct (Rle_dec dist 1) as [|Hgt]; [assumption|].
      pose proof (falloff_negative dist). lra.
    + intros Hle. apply falloff_range. assumption.
  - intros Hle. apply falloff_range. assumption.
  - apply falloff_negative.
Qed.

Lemma falloff_nonneg_iff_witness :
  0 <= 1 / 2 /\
  (0 <= falloff (1 / 2) <-> 1 / 2 <= 1) /\
  (1 / 2 <= 1 -> falloff (1 / 2) <= 1) /\
  (1 < 1 / 2 -> falloff (1 / 2) < 0).
Proof.
  assert (H : 0 <= 1 / 2) by lra.
  split; [exact H | exact (falloff_nonneg_iff (1 / 2) H)].
Defined.

(** C5 as stated fails: at a corner cell of the grid, at normalised
    coordinates (-1, -1), the distance is the square root of 2 and the
    multiplier is negative. *)
Lemma falloff_negative_at_corner :
  0 <= distance_from_center (-1) (-1) /\
  distance_from_center (-1) (-1) = sqrt 2 /\
  falloff (distance_from_center (-1) (-1)) < 0.
Proof.
  assert (E : distance_from_center (-1) (-1) = sqrt 2)
    by (unfold distance_from_center; f_equal; lra).
  assert (H1 : 1 < sqrt 2).
  { rewrite <- sqrt_1 at 1. apply sqrt_lt_1; lra. }
  rewrite E. split; [lra|]. split; [reflexivity|].
  apply falloff_negative. assumption.
Qed.

End ShapeFacts.

(** ** The normalizer *)

Module NormalizerFacts.
Import Normalizer Lqa.

Lemma foldl_Qmin_le (vs : list Q) (v : Q) :
  foldl Qmin v vs <= v /\ (forall u, u ∈ vs -> foldl Qmin v vs <= u).
Proof.
  revert v; induction vs as [|a vs IH]; intros v; cbn [foldl].
  - split; [lra|]. intros u Hu. apply elem_of_nil in Hu. contradiction.
  - destruct (IH (Qmin v a)) as [H1 H2].
    pose proof (Q.le_min_l v a). pose proof (Q.le_min_r v a).
    split; [lra|]. intros u Hu. apply elem_of_cons in Hu as [->|Hu]; [lra|auto].
Qed.

Lemma foldl_Qmax_ge (vs : list Q) (v : Q) :
  v <= foldl Qmax v vs /\ (forall u, u ∈ vs -> u <= foldl Qmax v vs).
Proof.
  revert v; induction vs as [|a vs IH]; intros v; cbn [foldl].
  - split; [lra|]. intros u Hu. apply elem_of_nil in Hu. contradiction.
  - destruct (IH (Qmax v a)) as [H1 H2].
    pose proof (Q.le_max_l v a). pose proof (Q.le_max_r v a).
    split; [lra|]. intros u Hu. apply elem_of_cons in Hu as [->|Hu]; [lra|auto].
Qed.

Lemma elem_of_concat (a : list (list Q)) (row : list Q) (q : Q) :
  row ∈ a -> q ∈ row -> q ∈ concat a.
Proof.
  intros Hrow Hq. apply list_elem_of_In, in_concat.
  exists row. split; apply list_elem_of_In; assumption.
Qed.

Lemma np_min_le (a : list (list Q)) (lo : Q) (row : list Q) (q : Q) :
  np_min a = Some lo -> row ∈ a -> q ∈ row -> lo <= q.
Proof.
  unfold np_min. intros Hlo Hrow Hq.
  pose proof (elem_of_concat a row q Hrow Hq) as Hin.
  destruct (concat a) as [|v vs]; [discriminate|]. injection Hlo as <-.
  destruct (foldl_Qmin_le vs v) as [H1 H2].
  apply elem_of_cons in Hin as [->|Hin]; auto.
Qed.

Lemma np_max_ge (a : list (list Q)) (hi : Q) (row : list Q) (q : Q) :
  np_max a = Some hi -> row ∈ a -> q ∈ row -> q <= hi.
Proof.
  unfold np_max. intros Hhi Hrow Hq.
  pose proof (elem_of_concat a row q Hrow Hq) as Hin.
  destruct (concat a) as [|v vs]; [discriminate|]. injection Hhi as <-.
  destruct (foldl_Qmax_ge vs v) as [H1 H2].
  apply elem_of_cons in Hin as [->|Hin]; auto.
Qed.

Lemma normalize_cells (a : list (list Q)) (lo hi : Q)
    (out : list (list f64)) (row : list f64) (v : f64) :
  np_min a = Some lo -> np_max a = Some hi -> normalize a = Some out ->
  row ∈ out -> v ∈ row ->
  exists q, lo <= q <= hi /\ v = np_div (255 * (q - lo)) (hi - lo).
Proof.
  intros Hlo Hhi. unfold normalize. rewrite Hlo, Hhi. cbn [mbind option_bind].
  intros [= <-] Hrow Hv.
  apply list_elem_of_fmap in Hrow as (r & -> & Hr).
  apply list_elem_of_fmap in Hv as (q & -> & Hq).
  exists q. split; [|reflexivity]. split.
  - eapply np_min_le; eassumption.
  - eapply np_max_ge; eassumption.
Qed.

(** C6, as the code has it: on a flat grid (maximum equal to minimum)
    nothing guards the division; every cell of the normalized grid is the
    NaN of 0/0. *)
Theorem normalize_flat_nan (a : list (list Q)) (lo hi : Q) :
  np_min a = Some lo -> np_max a = Some hi -> hi == lo ->
  exists out, normalize a = Some out /\
    forall row v, row ∈ out -> v ∈ row -> v = NaN.
Proof.
  intros Hlo Hhi Hflat.
  assert (E : exists out, normalize a = Some out)
    by (unfold normalize; rewrite Hlo, Hhi; eexists; reflexivity).
  destruct E as [out E]. exists out. split; [assumption|].
  intros row v Hrow Hv.
  destruct (normalize_cells a lo hi out row v Hlo Hhi E Hrow Hv)
    as (q & [Hq1 Hq2] & ->).
  unfold np_div.
  assert (D : hi - lo == 0) by lra. apply Qeq_bool_iff in D. rewrite D.
  assert (N : 255 * (q - lo) == 0) by lra. apply Qeq_bool_iff in N. rewrite N.
  reflexivity.
Qed.

Lemma normalize_flat_nan_witness :
  (np_min flat_terrain = Some 0 /\ np_max flat_terrain = Some 0 /\ 0 == 0) /\
  exists out, normalize flat_terrain = Some out /\
    forall row v, row ∈ out -> v ∈ row -> v = NaN.
Proof.
  split; [repeat split|].
  exact (normalize_flat_nan flat_terrain 0 0 eq_refl eq_refl (Qeq_refl 0)).
Defined.

(** C6 as stated fails: the flat grid is normalized to NaN throughout, not
    to a finite fallback value. *)
Lemma normalize_flat_no_fallback :
  np_min flat_terrain = np_max flat_terrain /\
  normalize flat_terrain =
    Some [[NaN; NaN; NaN]; [NaN; NaN; NaN]; [NaN; NaN; NaN]] /\
  is_finite NaN = false.
Proof. repeat split. Qed.

(** Away from the degenerate case every cell is finite. *)
Lemma normalize_finite (a : list (list Q)) (lo hi : Q)
    (out : list (list f64)) (row : list f64) (v : f64) :
  np_min a = Some lo -> np_max a = Some hi -> lo < hi ->
  normalize a = Some out -> row ∈ out -> v ∈ row -> is_finite v = true.
Proof.
  intros Hlo Hhi Hlt E Hrow Hv.
  destruct (normalize_cells a lo hi out row v Hlo Hhi E Hrow Hv) as (q & _ & ->).
  unfold np_div. destruct (Qeq_bool (hi - lo) 0) eqn:D; [|reflexivity].
  apply Qeq_bool_iff in D. lra.
Qed.

End NormalizerFacts.

(** ** More on the noise primitive: fade, lerp, grad *)

Module NoiseMore.
Import Noise NoiseFacts Lqa.

(** X1: under exact arithmetic the smoothing curve never decreases:
    [fade a <= fade b] whenever [a <= b], on the unit interval and outside
    it. *)
Theorem fade_monotone (a b : Q) : a <= b -> fade a <= fade b.
Proof.
  intros Hab.
  set (p := a * (1 - a)). set (e := (b - a) * (1 - 2 * a)).
  set (f := (b - a) * (b - a)).
  assert (E : fade b - fade a ==
              (b - a) * (30 * ((p + e * (1 # 2) - f * (1 # 3))
                               * (p + e * (1 # 2) - f * (1 # 3)))
                         + (5 # 2) * ((e - f) * (e - f))
                         + (1 # 6) * (f * f)))
    by (unfold fade, p, e, f; ring).
  assert (0 <= fade b - fade a); [|lra].
  rewrite E.
  pose proof (Qsquare_nonneg (p + e * (1 # 2) - f * (1 # 3))).
  pose proof (Qsquare_nonneg (e - f)). pose proof (Qsquare_nonneg f).
  apply Qmult_le_0_compat; lra.
Qed.

Lemma fade_monotone_witness : (1 # 4) <= (3 # 4) /\ fade (1 # 4) <= fade (3 # 4).
Proof.
  assert (H : (1 # 4) <= (3 # 4)) by discriminate.
  split; [exact H | exact (fade_monotone (1 # 4) (3 # 4) H)].
Defined.

(** X2: under exact arithmetic the smoothing curve maps the unit interval
    into the unit interval, and it is point-symmetric about (1/2, 1/2):
    fade(1 - t) = 1 - fade(t). *)
Theorem fade_unit_interval (t : Q) :
  0 <= t <= 1 -> 0 <= fade t <= 1 /\ fade (1 - t) == 1 - fade t.
Proof.
  intros Ht. split; [apply fade_range; assumption|]. unfold fade. ring.
Qed.

Lemma fade_unit_interval_witness :
  0 <= (1 # 3) <= 1 /\
  (0 <= fade (1 # 3) <= 1 /\ fade (1 - (1 # 3)) == 1 - fade (1 # 3)).
Proof.
  assert (H : 0 <= (1 # 3) <= 1) by (split; discriminate).
  split; [exact H | exact (fade_unit_interval (1 # 3) H)].
Defined.

(** X3: under exact arithmetic, with a weight in the unit interval [lerp]
    stays between its two end values, whichever is the larger. *)
Theorem lerp_between (t a b : Q) :
  0 <= t <= 1 -> Qmin a b <= lerp t a b <= Qmax a b.
Proof.
  intros [H0 H1]. unfold lerp.
  pose proof (Q.le_min_l a b). pose proof (Q.le_min_r a b).
  pose proof (Q.le_max_l a b). pose proof (Q.le_max_r a b).
  destruct (Qlt_le_dec a b).
  - assert (0 <= t * (b - a)) by (apply Qmult_le_0_compat; lra).
    assert (0 <= (1 - t) * (b - a)) by (apply Qmult_le_0_compat; lra).
    split; lra.
  - assert (0 <= t * (a - b)) by (apply Qmult_le_0_compat; lra).
    assert (0 <= (1 - t) * (a - b)) by (apply Qmult_le_0_compat; lra).
    split; lra.
Qed.

Lemma lerp_between_witness :
  0 <= (1 # 4) <= 1 /\
  Qmin 8 (-4) <= lerp (1 # 4) 8 (-4) <= Qmax 8 (-4).
Proof.
  assert (H : 0 <= (1 # 4) <= 1) by (split; discriminate).
  split; [exact H | exact (lerp_between (1 # 4) 8 (-4) H)].
Defined.

(** X4: whatever the hash, the gradient term is at most the sum of the
    magnitudes of the two offsets. *)
Theorem grad_magnitude (hash_val : Z) (x y : Q) :
  Qabs (grad hash_val x y) <= Qabs x + Qabs y.
Proof.
  apply Qabs_Qle_condition.
  apply grad_bound; apply Qabs_Qle_condition; apply Qle_refl.
Qed.


(** X5: the gradient term is the dot product of the offsets with one of
    the eight axis or diagonal directions: for every hash there are signs
    sx, sy in {-1, 0, 1}, not both 0, with grad = sx * x + sy * y for all
    offsets. *)
Theorem grad_direction (hash_val : Z) :
  exists sx sy : Z,
    (-1 <= sx <= 1)%Z /\ (-1 <= sy <= 1)%Z /\ (sx <> 0 \/ sy <> 0)%Z /\
    forall x y, grad hash_val x y == inject_Z sx * x + inject_Z sy * y.
Proof.
  unfold grad.
  pose proof (land_15_cases hash_val) as Hh; cbv zeta in Hh.
  repeat (destruct Hh as [Hh|Hh]); rewrite Hh;
    repeat match goal with
      | |- context [Z.land ?a ?b] =>
          let v := eval vm_compute in (Z.land a b) in
          change (Z.land a b) with v
      end; cbn [Z.ltb Z.eqb Z.compare Pos.compare Pos.compare_cont Pos.eqb orb];
    first
      [ exists 1%Z, 1%Z; split_and!; [lia .. | intros x y; ring]
      | exists (-1)%Z, 1%Z; split_and!; [lia .. | intros x y; ring]
      | exists 1%Z, (-1)%Z; split_and!; [lia .. | intros x y; ring]
      | exists (-1)%Z, (-1)%Z; split_and!; [lia .. | intros x y; ring]
      | exists 1%Z, 0%Z; split_and!; [lia .. | intros x y; ring]
      | exists (-1)%Z, 0%Z; split_and!; [lia .. | intros x y; ring]
      | exists 0%Z, 1%Z; split_and!; [lia .. | intros x y; ring]
      | exists 0%Z, (-1)%Z; split_and!; [lia .. | intros x y; ring] ].
Qed.

(** X6: with a valid table no lookup of the noise primitive leaves the
    table: it returns a value at every pair of coordinates, negative ones
    included. *)
Theorem perlin_noise_never_raises (x y : Q) (t : list Z) :
  Table.valid_table t -> is_Some (perlin_noise x y t).
Proof.
  intros Ht. destruct (perlin_noise_total x y t Ht) as (aa & ab & ba & bb & ->).
  eexists. reflexivity.
Qed.

Lemma perlin_noise_never_raises_witness :
  Table.valid_table identity_table /\
  is_Some (perlin_noise (-7 # 3) (1000 # 7) identity_table).
Proof.
  assert (Hv : Table.valid_table identity_table)
    by (exists (Table.arange 256); split; reflexivity).
  split; [exact Hv | exact (perlin_noise_never_raises _ _ _ Hv)].
Defined.



(** *** Period 256 *)









(** X9: the second copy of the permutation is needed: with a table of at
    most 256 entries, in the last lattice column (xi = 255) the lookup
    p[xi + 1] of line 42 lies outside the table, and the noise primitive
    has no defined result (the compiled code reads past the array). *)
Theorem perlin_noise_short_table (x y : Q) (t : list Z) :
  (length t <= 256)%nat -> cell_index x = 255%Z ->
  Py.getitem t (cell_index x + 1) = None /\ perlin_noise x y t = None.
Proof.
  intros Hlen Hxi.
  assert (E : Py.getitem t (255 + 1) = None).
  { rewrite PyFacts.getitem_lookup by lia. apply lookup_ge_None. lia. }
  unfold perlin_noise. rewrite Hxi. split; [exact E|].
  destruct (Py.getitem t 255) as [pxi|]; [|reflexivity]. cbn [mbind option_bind].
  destruct (Py.getitem t (pxi + cell_index y)) as [aa|]; [|reflexivity].
  cbn [mbind option_bind].
  destruct (Py.getitem t (pxi + cell_index y + 1)) as [ab|]; [|reflexivity].
  cbn [mbind option_bind]. rewrite E. reflexivity.
Qed.

Lemma perlin_noise_short_table_witness :
  ((length (reverse (Table.arange 256)) <= 256)%nat /\
   cell_index (511 # 2) = 255%Z) /\
  Py.getitem (reverse (Table.arange 256)) (cell_index (511 # 2) + 1) = None /\
  perlin_noise (511 # 2) (1 # 3) (reverse (Table.arange 256)) = None.
Proof.
  assert (Hl : (length (reverse (Table.arange 256)) <= 256)%nat)
    by (vm_compute; apply le_n).
  assert (Hi : cell_index (511 # 2) = 255%Z) by reflexivity.
  split; [tauto | exact (perlin_noise_short_table _ _ _ Hl Hi)].
Defined.

End NoiseMore.

(** ** More on the thermal erosion simulator *)

Module ErosionMore.
Import Erosion ErosionFacts Lqa.

Lemma for_each_fixed {S A} (body : S -> A -> option S) (l : list A) (s : S) :
  (forall a, a ∈ l -> body s a = Some s) -> Py.for_each body l s = Some s.
Proof.
  induction l as [|a l IH]; intros Hl; cbn [Py.for_each]; [reflexivity|].
  rewrite (Hl a) by left. cbn [mbind option_bind].
  apply IH. intros a' Ha'. apply Hl. right. assumption.
Qed.

Lemma worker_small (talus : Q) (height width n : nat) :
  (height <= 2 \/ width <= 2)%nat -> worker talus height width n = Ret.
Proof.
  intros Hsmall. induction n as [|n IH]; cbn [worker]; [reflexivity|].
  rewrite IH. unfold sweep_ops, Py.range.
  destruct Hsmall as [Hh|Hw].
  - replace (height - 1 - 1)%nat with 0%nat by lia. reflexivity.
  - induction (seq 1 (height - 1 - 1)) as [|y l IHl]; cbn [foldr]; [reflexivity|].
    rewrite IHl. unfold sweep_row_ops, Py.range.
    replace (width - 1 - 1)%nat with 0%nat by lia. reflexivity.
Qed.

(** X10: a grid with fewer than three rows or fewer than three columns has
    no interior cell: the simulator hands it back unchanged, whatever the
    iteration count, the threshold and the interleaving of the workers. *)
Theorem erosion_small_grid (w : list (list Q)) (iterations : Z) (talus : Q) :
  ((shape w).1 <= 2 \/ (shape w).2 <= 2)%nat ->
  serial_erosion w iterations talus = Some w /\
  (forall w', apply_thermal_erosion w iterations talus w' <-> w' = w).
Proof.
  intros Hsmall.
  assert (Hs : serial_erosion w iterations talus = Some w).
  { unfold serial_erosion.
    destruct (shape w) as [height width]; cbn [fst snd] in Hsmall.
    apply for_each_fixed. intros i _. unfold sweep.
    apply for_each_fixed. intros y Hy. unfold sweep_row.
    apply for_each_fixed. intros x Hx.
    unfold Py.range in Hy, Hx. apply elem_of_seq in Hy. apply elem_of_seq in Hx. lia. }
  split; [assumption|]. intros w'. split.
  - intros (chunks & picks & _ & Hrun).
    rewrite run_finished in Hrun; [congruence|].
    apply Forall_fmap, Forall_forall. intros n _. apply worker_small. assumption.
  - intros ->. apply serial_outcome. assumption.
Qed.

Lemma erosion_small_grid_witness :
  ((shape strip_world).1 <= 2 \/ (shape strip_world).2 <= 2)%nat /\
  serial_erosion strip_world 50 TALUS_ANGLE = Some strip_world /\
  (forall w', apply_thermal_erosion strip_world 50 TALUS_ANGLE w' <->
              w' = strip_world).
Proof.
  assert (H : ((shape strip_world).1 <= 2 \/ (shape strip_world).2 <= 2)%nat)
    by (left; cbn; lia).
  split; [exact H | exact (erosion_small_grid _ 50 TALUS_ANGLE H)].
Defined.

Lemma transfer_ops_stable (h wd : nat) (talus : Q) (w0 : list (list Q)) :
  rect h wd w0 ->
  (forall y x n c hn, interior h wd y x -> n ∈ neighbors y x ->
     getcell w0 y x = Some c -> getcell w0 n.1 n.2 = Some hn ->
     c - hn <= talus) ->
  forall y x center_h n k,
  interior h wd y x -> n ∈ neighbors y x ->
  (exists w, w = w0 /\ getcell w y x = Some center_h) ->
  safe (fun w => w = w0) k ->
  safe (fun w => w = w0) (transfer_ops y x center_h talus n k).
Proof.
  intros Hr Hstable y x center_h n k Hi Hn (w & -> & Hc) Hk.
  destruct (neighbors_interior h wd y x n Hi Hn) as (Hn1 & Hn2 & _).
  pose proof (Hstable y x n center_h) as Hst.
  destruct n as [ny nx]; cbn [fst snd] in *.
  unfold transfer_ops. cbn [safe]. intros w ->.
  destruct (getcell_Some h wd w0 ny nx Hr Hn1 Hn2) as [hn Hhn].
  exists hn. split; [assumption|].
  destruct (Py.gt (center_h - hn) talus) eqn:G; [|assumption].
  apply gt_spec in G. specialize (Hst hn Hi Hn Hc Hhn). lra.
Qed.

(** X11: terrain at rest stays at rest: when no interior cell stands more
    than the threshold above any of its four neighbours, the simulator
    returns the grid unchanged, for every iteration count and under every
    interleaving of the workers (nothing is ever written). *)
Theorem erosion_stable_fixed (h wd : nat) (w : list (list Q))
    (iterations : Z) (talus : Q) :
  rect h wd w ->
  (forall y x n c hn, interior h wd y x -> n ∈ neighbors y x ->
     getcell w y x = Some c -> getcell w n.1 n.2 = Some hn ->
     c - hn <= talus) ->
  serial_erosion w iterations talus = Some w /\
  (forall w', apply_thermal_erosion w iterations talus w' <-> w' = w).
Proof.
  intros Hr Hstable.
  assert (Hs : serial_erosion w iterations talus = Some w).
  { unfold serial_erosion.
    destruct (shape_rect h wd w Hr) as [Hh Hwd].
    destruct (shape w) as [height width]; cbn [fst snd] in Hh, Hwd.
    apply for_each_fixed. intros i _. unfold sweep.
    apply for_each_fixed. intros y Hy. unfold sweep_row.
    apply for_each_fixed. intros x Hx.
    unfold Py.range in Hy, Hx. apply elem_of_seq in Hy. apply elem_of_seq in Hx.
    assert (Hi : interior h wd y x) by (unfold interior; lia).
    unfold relax.
    destruct (getcell_Some h wd w y x Hr) as [c Hc]; [lia ..|].
    rewrite Hc. cbn [mbind option_bind].
    apply for_each_fixed. intros [ny nx] Hn.
    destruct (neighbors_interior h wd y x _ Hi Hn) as (Hn1 & Hn2 & _).
    cbn [fst snd] in Hn1, Hn2.
    destruct (getcell_Some h wd w ny nx Hr Hn1 Hn2) as [hn Hhn].
    unfold transfer. rewrite Hhn. cbn [mbind option_bind].
    destruct (Py.gt (c - hn) talus) eqn:G; [|reflexivity].
    apply gt_spec in G.
    pose proof (Hstable y x (ny, nx) c hn Hi Hn Hc Hhn). lra. }
  split; [assumption|]. intros w'. split.
  - intros Hout. destruct (shape_rect h wd w Hr) as [Hh Hwd].
    apply (outcome_invariant (fun w1 => w1 = w) w w' iterations talus);
      [reflexivity | | assumption].
    intros n. apply (worker_safe h wd talus (fun w1 => w1 = w));
      [intros w1 ->; assumption
      | apply transfer_ops_stable; assumption | assumption ..].
  - intros ->. apply serial_outcome. assumption.
Qed.

Lemma erosion_stable_fixed_witness :
  (rect 4 4 plateau_world /\
   (forall y x n c hn, interior 4 4 y x -> n ∈ neighbors y x ->
      getcell plateau_world y x = Some c ->
      getcell plateau_world n.1 n.2 = Some hn -> c - hn <= TALUS_ANGLE)) /\
  serial_erosion plateau_world 50 TALUS_ANGLE = Some plateau_world /\
  (forall w', apply_thermal_erosion plateau_world 50 TALUS_ANGLE w' <->
              w' = plateau_world).
Proof.
  assert (Hr : rect 4 4 plateau_world) by (split; [reflexivity | repeat constructor]).
  assert (Hs : forall y x n c hn, interior 4 4 y x -> n ∈ neighbors y x ->
      getcell plateau_world y x = Some c ->
      getcell plateau_world n.1 n.2 = Some hn -> c - hn <= TALUS_ANGLE).
  { intros y x n c hn (Hy1 & Hy2 & Hx1 & Hx2) Hn Hc Hhn.
    assert (Hall : forall a b v, getcell plateau_world a b = Some v -> v = 2).
    { intros a b v.
      do 4 (try destruct a as [|a]); do 4 (try destruct b as [|b]);
        cbn; intros [=]; congruence. }
    rewrite (Hall _ _ _ Hc), (Hall _ _ _ Hhn). discriminate. }
  split; [split; assumption|].
  exact (erosion_stable_fixed 4 4 plateau_world 50 TALUS_ANGLE Hr Hs).
Defined.

(** *** One centre, in closed form *)

#[local] Instance unconstrained_preorder : PreOrder unconstrained.
Proof. split; intros ?; unfold unconstrained; tauto. Qed.

(** The state after the centre [(y, x)] has been processed, in terms of
    the four neighbour heights read before. *)
Lemma relax_values (h wd : nat) (w : list (list Q)) (y x : nat) (talus : Q)
    (c h1 h2 h3 h4 : Q) :
  rect h wd w -> interior h wd y x ->
  getcell w y x = Some c ->
  getcell w y (x - 1) = Some h1 -> getcell w y (x + 1) = Some h2 ->
  getcell w (y - 1) x = Some h3 -> getcell w (y + 1) x = Some h4 ->
  exists w' c' h1' h2' h3' h4',
    relax talus y w x = Some w' /\ rect h wd w' /\
    getcell w' y x = Some c' /\
    c' == c - (move_of c talus h1 + move_of c talus h2
               + move_of c talus h3 + move_of c talus h4) /\
    getcell w' y (x - 1) = Some h1' /\ h1' == h1 + move_of c talus h1 /\
    getcell w' y (x + 1) = Some h2' /\ h2' == h2 + move_of c talus h2 /\
    getcell w' (y - 1) x = Some h3' /\ h3' == h3 + move_of c talus h3 /\
    getcell w' (y + 1) x = Some h4' /\ h4' == h4 + move_of c talus h4 /\
    (forall a b, (a, b) <> (y, x) -> (a, b) ∉ neighbors y x ->
       getcell w' a b = getcell w a b).
Proof.
  intros Hr Hi Hc H1 H2 H3 H4. pose proof Hi as (Hy1 & Hy2 & Hx1 & Hx2).
  destruct (neighbors_NoDup y x Hy1 Hx1) as [Hnd Hcn].
  destruct (transfers_values h wd y x c talus ltac:(lia) ltac:(lia)
              (neighbors y x) w c Hr Hnd Hcn)
    as (w' & E & Hr' & (c' & Hc' & Ec') & Hv & Hf);
    [intros n' Hn'; destruct (neighbors_interior h wd y x n' Hi Hn'); tauto
    | assumption |].
  assert (I1 : (y, x - 1)%nat ∈ neighbors y x) by (unfold neighbors; rewrite !elem_of_cons; tauto).
  assert (I2 : (y, x + 1)%nat ∈ neighbors y x) by (unfold neighbors; rewrite !elem_of_cons; tauto).
  assert (I3 : (y - 1, x)%nat ∈ neighbors y x) by (unfold neighbors; rewrite !elem_of_cons; tauto).
  assert (I4 : (y + 1, x)%nat ∈ neighbors y x) by (unfold neighbors; rewrite !elem_of_cons; tauto).
  destruct (Hv _ h1 I1 H1) as (h1' & G1 & E1).
  destruct (Hv _ h2 I2 H2) as (h2' & G2 & E2).
  destruct (Hv _ h3 I3 H3) as (h3' & G3 & E3).
  destruct (Hv _ h4 I4 H4) as (h4' & G4 & E4).
  cbn [fst snd] in G1, G2, G3, G4.
  exists w', c', h1', h2', h3', h4'.
  split_and!; try assumption.
  - unfold relax. rewrite Hc. cbn [mbind option_bind]. assumption.
  - rewrite Ec'. unfold neighbors. rewrite !outflow_cons. cbn [fst snd].
    rewrite H1, H2, H3, H4. unfold outflow, default; cbn [foldr from_option].
    unfold Datatypes.id. ring.
Qed.

Lemma move_of_cases (c talus hn : Q) :
  move_of c talus hn = 0 \/ move_of c talus hn = (c - hn) / 4.
Proof. unfold move_of. destruct (Py.gt _ _); [right | left]; reflexivity. Qed.

Lemma relax_within (h wd : nat) (lo hi talus : Q) (w : list (list Q))
    (y x : nat) :
  rect h wd w -> within lo hi w -> interior h wd y x ->
  exists w', relax talus y w x = Some w' /\
             (rect h wd w' /\ within lo hi w') /\ unconstrained w w'.
Proof.
  intros Hr Hb Hi. pose proof Hi as (Hy1 & Hy2 & Hx1 & Hx2).
  destruct (getcell_Some h wd w y x Hr) as [c Hc]; [lia ..|].
  destruct (getcell_Some h wd w y (x - 1) Hr) as [h1 H1]; [lia ..|].
  destruct (getcell_Some h wd w y (x + 1) Hr) as [h2 H2]; [lia ..|].
  destruct (getcell_Some h wd w (y - 1) x Hr) as [h3 H3]; [lia ..|].
  destruct (getcell_Some h wd w (y + 1) x Hr) as [h4 H4]; [lia ..|].
  destruct (relax_values h wd w y x talus c h1 h2 h3 h4 Hr Hi Hc H1 H2 H3 H4)
    as (w' & c' & h1' & h2' & h3' & h4' & E & Hr' & Gc & Ec & G1 & E1 & G2 & E2
        & G3 & E3 & G4 & E4 & Hf).
  exists w'. split; [assumption|]. split; [|exact I]. split; [assumption|].
  pose proof (Hb _ _ _ Hc) as Bc.
  pose proof (Hb _ _ _ H1) as B1. pose proof (Hb _ _ _ H2) as B2.
  pose proof (Hb _ _ _ H3) as B3. pose proof (Hb _ _ _ H4) as B4.
  assert (M : forall hn, lo <= hn <= hi ->
            (c - hi) * (1 # 4) <= move_of c talus hn <= (c - lo) * (1 # 4) /\
            lo <= hn + move_of c talus hn <= hi).
  { intros hn Bn. destruct (move_of_cases c talus hn) as [-> | ->];
      unfold Qdiv; change (/ 4) with (1 # 4); split; lra. }
  destruct (M h1 B1) as [M1 N1]. destruct (M h2 B2) as [M2 N2].
  destruct (M h3 B3) as [M3 N3]. destruct (M h4 B4) as [M4 N4].
  intros a b v Hv.
  destruct (decide ((a, b) = (y, x))) as [[= -> ->]|Hne].
  { rewrite Gc in Hv. injection Hv as <-. lra. }
  destruct (decide ((a, b) ∈ neighbors y x)) as [Hin|Hnin].
  - destruct (neighbors_inv _ _ _ Hin) as [[= -> ->] | [[= -> ->] | [[= -> ->] | [= -> ->]]]].
    + rewrite G1 in Hv. injection Hv as <-. lra.
    + rewrite G2 in Hv. injection Hv as <-. lra.
    + rewrite G3 in Hv. injection Hv as <-. lra.
    + rewrite G4 in Hv. injection Hv as <-. lra.
  - rewrite (Hf a b Hne Hnin) in Hv. exact (Hb _ _ _ Hv).
Qed.

(** X12: run serially and under exact arithmetic, erosion creates no new
    peak and no new pit: when every cell of the input lies between lo and
    hi, the simulator runs to its end and every cell of its result lies
    between lo and hi, for every iteration count and every threshold. *)
Theorem erosion_within (h wd : nat) (lo hi : Q) (w : list (list Q))
    (iterations : Z) (talus : Q) :
  rect h wd w -> within lo hi w ->
  exists w', serial_erosion w iterations talus = Some w' /\
             rect h wd w' /\ within lo hi w'.
Proof.
  intros Hr Hb. unfold serial_erosion.
  destruct (shape_rect h wd w Hr) as [Hh Hwd].
  destruct (shape w) as [height width]; cbn [fst snd] in Hh, Hwd.
  destruct (PyFacts.for_each_rel
              (fun s => rect h wd s /\ within lo hi s) unconstrained
              (sweep talus height width) (Py.range 0 (Z.to_nat iterations)))
    with (s := w) as (w' & E & [Hr' Hb'] & _); [|split; assumption|].
  - intros s i _ Hs. unfold sweep.
    apply (PyFacts.for_each_rel
             (fun s => rect h wd s /\ within lo hi s) unconstrained); [|assumption].
    intros s1 y Hy Hs1. unfold sweep_row.
    apply (PyFacts.for_each_rel
             (fun s => rect h wd s /\ within lo hi s) unconstrained); [|assumption].
    intros s2 x Hx [Hr2 Hb2].
    unfold Py.range in Hy, Hx. apply elem_of_seq in Hy. apply elem_of_seq in Hx.
    apply relax_within; [assumption | assumption | unfold interior; lia].
  - exists w'. split_and!; assumption.
Qed.

Lemma erosion_within_witness :
  (rect 3 5 ridge_world /\ within 0 100 ridge_world) /\
  exists w', serial_erosion ridge_world 50 TALUS_ANGLE = Some w' /\
             rect 3 5 w' /\ within 0 100 w'.
Proof.
  assert (Hr : rect 3 5 ridge_world) by (split; [reflexivity | repeat constructor]).
  assert (Hb : within 0 100 ridge_world).
  { intros y x v.
    do 3 (try destruct y as [|y]); do 5 (try destruct x as [|x]);
      cbn; intros [=]; subst; split; discriminate. }
  split; [split; assumption|].
  exact (erosion_within 3 5 0 100 ridge_world 50 TALUS_ANGLE Hr Hb).
Defined.

(** X13: under exact arithmetic and with no other worker writing in
    between, when the centre stands more than the threshold above all four
    neighbours, processing it leaves the centre at the mean of the four
    heights its neighbours had, and each neighbour a quarter of the way
    up to the height the centre had. *)
Theorem relax_all_treated (h wd : nat) (w : list (list Q)) (y x : nat)
    (talus c h1 h2 h3 h4 : Q) :
  rect h wd w -> interior h wd y x ->
  getcell w y x = Some c ->
  getcell w y (x - 1) = Some h1 -> getcell w y (x + 1) = Some h2 ->
  getcell w (y - 1) x = Some h3 -> getcell w (y + 1) x = Some h4 ->
  talus < c - h1 -> talus < c - h2 -> talus < c - h3 -> talus < c - h4 ->
  exists w' c' h1' h2' h3' h4',
    relax talus y w x = Some w' /\
    getcell w' y x = Some c' /\ c' == (h1 + h2 + h3 + h4) / 4 /\
    getcell w' y (x - 1) = Some h1' /\ h1' == h1 + (c - h1) / 4 /\
    getcell w' y (x + 1) = Some h2' /\ h2' == h2 + (c - h2) / 4 /\
    getcell w' (y - 1) x = Some h3' /\ h3' == h3 + (c - h3) / 4 /\
    getcell w' (y + 1) x = Some h4' /\ h4' == h4 + (c - h4) / 4.
Proof.
  intros Hr Hi Hc H1 H2 H3 H4 T1 T2 T3 T4.
  destruct (relax_values h wd w y x talus c h1 h2 h3 h4 Hr Hi Hc H1 H2 H3 H4)
    as (w' & c' & h1' & h2' & h3' & h4' & E & Hr' & Gc & Ec & G1 & E1 & G2 & E2
        & G3 & E3 & G4 & E4 & _).
  rewrite (move_of_treated c talus h1 T1) in Ec, E1.
  rewrite (move_of_treated c talus h2 T2) in Ec, E2.
  rewrite (move_of_treated c talus h3 T3) in Ec, E3.
  rewrite (move_of_treated c talus h4 T4) in Ec, E4.
  exists w', c', h1', h2', h3', h4'. split_and!; try assumption.
  rewrite Ec. field.
Qed.

Lemma relax_all_treated_witness :
  (rect 3 3 peak_world /\ interior 3 3 1 1 /\
   TALUS_ANGLE < 1 - 0) /\
  exists w' c' h1' h2' h3' h4',
    relax TALUS_ANGLE 1 peak_world 1 = Some w' /\
    getcell w' 1 1 = Some c' /\ c' == (0 + 0 + 0 + 0) / 4 /\
    getcell w' 1 (1 - 1) = Some h1' /\ h1' == 0 + (1 - 0) / 4 /\
    getcell w' 1 (1 + 1) = Some h2' /\ h2' == 0 + (1 - 0) / 4 /\
    getcell w' (1 - 1) 1 = Some h3' /\ h3' == 0 + (1 - 0) / 4 /\
    getcell w' (1 + 1) 1 = Some h4' /\ h4' == 0 + (1 - 0) / 4.
Proof.
  assert (Hr : rect 3 3 peak_world) by (split; [reflexivity | repeat constructor]).
  assert (Hi : interior 3 3 1 1) by (unfold interior; lia).
  assert (T : TALUS_ANGLE < 1 - 0) by reflexivity.
  split; [tauto|].
  exact (relax_all_treated 3 3 peak_world 1 1 TALUS_ANGLE 1 0 0 0 0 Hr Hi
           eq_refl eq_refl eq_refl eq_refl eq_refl T T T T).
Defined.

(** X22: with a threshold of at least 0 material only leaves the centre
    being processed (no other worker writing in between): the centre does
    not rise, none of its four neighbours falls, and every other cell
    keeps its value. *)
Theorem relax_downhill (h wd : nat) (w : list (list Q)) (y x : nat)
    (talus c : Q) :
  rect h wd w -> interior h wd y x -> 0 <= talus ->
  getcell w y x = Some c ->
  exists w' c', relax talus y w x = Some w' /\
    getcell w' y x = Some c' /\ c' <= c /\
    (forall n hn, n ∈ neighbors y x -> getcell w n.1 n.2 = Some hn ->
       exists hn', getcell w' n.1 n.2 = Some hn' /\ hn <= hn') /\
    (forall a b, (a, b) <> (y, x) -> (a, b) ∉ neighbors y x ->
       getcell w' a b = getcell w a b).
Proof.
  intros Hr Hi Ht Hc. pose proof Hi as (Hy1 & Hy2 & Hx1 & Hx2).
  destruct (getcell_Some h wd w y (x - 1) Hr) as [h1 H1]; [lia ..|].
  destruct (getcell_Some h wd w y (x + 1) Hr) as [h2 H2]; [lia ..|].
  destruct (getcell_Some h wd w (y - 1) x Hr) as [h3 H3]; [lia ..|].
  destruct (getcell_Some h wd w (y + 1) x Hr) as [h4 H4]; [lia ..|].
  destruct (relax_values h wd w y x talus c h1 h2 h3 h4 Hr Hi Hc H1 H2 H3 H4)
    as (w' & c' & h1' & h2' & h3' & h4' & E & Hr' & Gc & Ec & G1 & E1 & G2 & E2
        & G3 & E3 & G4 & E4 & Hf).
  pose proof (move_of_nonneg c talus h1 Ht). pose proof (move_of_nonneg c talus h2 Ht).
  pose proof (move_of_nonneg c talus h3 Ht). pose proof (move_of_nonneg c talus h4 Ht).
  exists w', c'. split_and!; [assumption | assumption | lra | | assumption].
  intros n hn Hn Hhn.
  destruct (neighbors_inv _ _ _ Hn) as [-> | [-> | [-> | ->]]];
    cbn [fst snd] in *; rewrite Hhn in *;
    match goal with H : Some hn = Some _ |- _ => injection H as <- end;
    eexists; (split; [eassumption | lra]).
Qed.

Lemma relax_downhill_witness :
  (rect 3 5 ridge_world /\ interior 3 5 1 3 /\ 0 <= TALUS_ANGLE) /\
  exists w' c', relax TALUS_ANGLE 1 ridge_world 3 = Some w' /\
    getcell w' 1 3 = Some c' /\ c' <= 100 /\
    (forall n hn, n ∈ neighbors 1 3 -> getcell ridge_world n.1 n.2 = Some hn ->
       exists hn', getcell w' n.1 n.2 = Some hn' /\ hn <= hn') /\
    (forall a b, (a, b) <> (1, 3)%nat -> (a, b) ∉ neighbors 1 3 ->
       getcell w' a b = getcell ridge_world a b).
Proof.
  assert (Hr : rect 3 5 ridge_world) by (split; [reflexivity | repeat constructor]).
  assert (Hi : interior 3 5 1 3) by (unfold interior; lia).
  assert (Ht : 0 <= TALUS_ANGLE) by discriminate.
  split; [tauto|].
  exact (relax_downhill 3 5 ridge_world 1 3 TALUS_ANGLE 100 Hr Hi Ht eq_refl).
Defined.

End ErosionMore.

(** ** The geometric shape builder *)

Module ShapeMore.
Import Shape ShapeFacts Lra.
Local Open Scope R_scope.

Lemma np_power_2 (b : R) : 0 <= b -> np_power b 2 = b * b.
Proof.
  intros Hb. unfold np_power. destruct (Req_dec_T b 0) as [->|Hne]; [lra|].
  replace 2 with (INR 2) by (cbn; lra).
  rewrite Rpower_pow by lra. cbn. lra.
Qed.

Lemma main_cone_eq (d : R) :
  0 <= d -> main_cone d = Rmax 0 ((7 / 10) * (1 - (25 / 4) * (d * d))).
Proof.
  intros Hd. unfold main_cone, VOLCANO_HEIGHT, VOLCANO_RADIUS.
  rewrite np_power_2 by (apply Rmult_le_pos; lra). f_equal. field.
Qed.

Lemma caldera_eq (d : R) :
  0 <= d -> caldera d = Rmax 0 ((3 / 10) * (1 - (625 / 9) * (d * d))).
Proof.
  intros Hd. unfold caldera, CALDERA_DEPTH, CALDERA_RADIUS.
  rewrite np_power_2 by (apply Rmult_le_pos; lra). f_equal. field.
Qed.

Lemma Rsquare_le (a b : R) : 0 <= a <= b -> a * a <= b * b.
Proof. intros [Ha Hab]. apply Rmult_le_compat; lra. Qed.

(** The three regimes of the shape, in closed form. *)
Lemma base_inside_caldera (d : R) :
  0 <= d <= CALDERA_RADIUS ->
  base_volcano_shape d = 2 / 5 + (395 / 24) * (d * d).
Proof.
  unfold CALDERA_RADIUS. intros [H0 H1]. unfold base_volcano_shape.
  rewrite main_cone_eq, caldera_eq by assumption.
  pose proof (Rsquare_le 0 d ltac:(lra)). pose proof (Rsquare_le d (3 / 25) ltac:(lra)).
  unfold Rmax. repeat destruct (Rle_dec _ _); lra.
Qed.

Lemma base_on_slope (d : R) :
  CALDERA_RADIUS <= d <= VOLCANO_RADIUS ->
  base_volcano_shape d = (7 / 10) * (1 - (25 / 4) * (d * d)).
Proof.
  unfold CALDERA_RADIUS, VOLCANO_RADIUS. intros [H0 H1]. unfold base_volcano_shape.
  rewrite main_cone_eq, caldera_eq by lra.
  pose proof (Rsquare_le (3 / 25) d ltac:(lra)). pose proof (Rsquare_le d (2 / 5) ltac:(lra)).
  unfold Rmax. repeat destruct (Rle_dec _ _); lra.
Qed.

Lemma base_outside (d : R) :
  VOLCANO_RADIUS <= d -> base_volcano_shape d = 0.
Proof.
  unfold VOLCANO_RADIUS. intros H0. unfold base_volcano_shape.
  rewrite main_cone_eq, caldera_eq by lra.
  pose proof (Rsquare_le (2 / 5) d ltac:(lra)).
  unfold Rmax. repeat destruct (Rle_dec _ _); lra.
Qed.

Lemma base_nonneg (d : R) : 0 <= base_volcano_shape d.
Proof. unfold base_volcano_shape. apply Rmax_l. Qed.

(** X15: the volcano shape is exactly 0 at and beyond the volcano radius,
    and at every distance it lies between 0 and 0.637, the height of the
    crater rim. *)
Theorem base_volcano_shape_range (d : R) :
  0 <= d ->
  0 <= base_volcano_shape d <= 637 / 1000 /\
  (VOLCANO_RADIUS <= d -> base_volcano_shape d = 0).
Proof.
  intros Hd. split; [|apply base_outside].
  destruct (Rle_dec d CALDERA_RADIUS) as [Hc|Hc].
  - rewrite base_inside_caldera by lra. unfold CALDERA_RADIUS in Hc.
    pose proof (Rsquare_le 0 d ltac:(lra)). pose proof (Rsquare_le d (3 / 25) ltac:(lra)).
    lra.
  - destruct (Rle_dec d VOLCANO_RADIUS) as [Hv|Hv].
    + rewrite base_on_slope by lra. unfold CALDERA_RADIUS, VOLCANO_RADIUS in *.
      pose proof (Rsquare_le (3 / 25) d ltac:(lra)).
      pose proof (Rsquare_le d (2 / 5) ltac:(lra)). lra.
    + rewrite base_outside by lra. lra.
Qed.

Lemma base_volcano_shape_range_witness :
  0 <= 1 / 4 /\
  (0 <= base_volcano_shape (1 / 4) <= 637 / 1000 /\
   (VOLCANO_RADIUS <= 1 / 4 -> base_volcano_shape (1 / 4) = 0)).
Proof.
  assert (H : 0 <= 1 / 4) by lra.
  split; [exact H | exact (base_volcano_shape_range (1 / 4) H)].
Defined.

(** X16: the profile of the volcano, under exact arithmetic: from the
    crater floor (height 0.4 at the centre) the shape rises with the
    distance up to the caldera radius, and from there it falls with the
    distance. *)
Theorem base_volcano_shape_profile (d d' : R) :
  0 <= d <= d' ->
  base_volcano_shape 0 = 2 / 5 /\
  (d' <= CALDERA_RADIUS -> base_volcano_shape d <= base_volcano_shape d') /\
  (CALDERA_RADIUS <= d -> base_volcano_shape d' <= base_volcano_shape d).
Proof.
  intros [H0 Hdd]. pose proof (Rsquare_le d d' ltac:(lra)) as Hsq. split_and!.
  - rewrite base_inside_caldera by (unfold CALDERA_RADIUS; lra). lra.
  - intros Hc. rewrite !base_inside_caldera by lra. lra.
  - intros Hc. unfold CALDERA_RADIUS in Hc.
    destruct (Rle_dec d' VOLCANO_RADIUS) as [Hv|Hv].
    + rewrite !base_on_slope by (unfold CALDERA_RADIUS; lra). lra.
    + rewrite (base_outside d') by lra. apply base_nonneg.
Qed.

Lemma base_volcano_shape_profile_witness :
  0 <= 1 / 10 <= 1 / 9 /\
  (base_volcano_shape 0 = 2 / 5 /\
   (1 / 9 <= CALDERA_RADIUS ->
      base_volcano_shape (1 / 10) <= base_volcano_shape (1 / 9)) /\
   (CALDERA_RADIUS <= 1 / 10 ->
      base_volcano_shape (1 / 9) <= base_volcano_shape (1 / 10))).
Proof.
  assert (H : 0 <= 1 / 10 <= 1 / 9) by lra.
  split; [exact H | exact (base_volcano_shape_profile (1 / 10) (1 / 9) H)].
Defined.

(** X17: out to the falloff start radius the island multiplier is exactly
    1, and it never increases with the distance. *)
Theorem falloff_plateau_then_decreasing (d d' : R) :
  d <= d' ->
  (d <= ISLAND_FALLOFF_START -> falloff d = 1) /\ falloff d' <= falloff d.
Proof.
  intros Hdd. split.
  - unfold ISLAND_FALLOFF_START. intros Hs. unfold falloff, ISLAND_FALLOFF_START.
    replace (Rmax 0 ((d - 1 / 5) / (1 - 1 / 5))) with 0.
    + unfold np_power. destruct (Req_dec_T 0 0); [lra | contradiction].
    + symmetry. apply Rmax_left.
      replace ((d - 1 / 5) / (1 - 1 / 5)) with ((5 * d - 1) / 4) by field. lra.
  - unfold falloff, ISLAND_FALLOFF_START.
    set (b := Rmax 0 ((d - 1 / 5) / (1 - 1 / 5))).
    set (b' := Rmax 0 ((d' - 1 / 5) / (1 - 1 / 5))).
    assert (Hb : 0 <= b) by apply Rmax_l.
    assert (Hbb : b <= b').
    { unfold b, b'. apply Rle_max_compat_l.
      replace ((d - 1 / 5) / (1 - 1 / 5)) with ((5 * d - 1) / 4) by field.
      replace ((d' - 1 / 5) / (1 - 1 / 5)) with ((5 * d' - 1) / 4) by field. lra. }
    assert (np_power b ISLAND_FALLOFF_STRENGTH <= np_power b' ISLAND_FALLOFF_STRENGTH);
      [|lra].
    pose proof falloff_strength_pos.
    unfold np_power. destruct (Req_dec_T b 0) as [E|E], (Req_dec_T b' 0) as [E'|E'].
    + lra.
    + left. apply exp_pos.
    + lra.
    + apply Rle_Rpower_l; lra.
Qed.

Lemma falloff_plateau_then_decreasing_witness :
  1 / 10 <= 3 / 4 /\
  ((1 / 10 <= ISLAND_FALLOFF_START -> falloff (1 / 10) = 1) /\
   falloff (3 / 4) <= falloff (1 / 10)).
Proof.
  assert (H : 1 / 10 <= 3 / 4) by lra.
  split; [exact H | exact (falloff_plateau_then_decreasing (1 / 10) (3 / 4) H)].
Defined.

(** X18: with a detail value of magnitude at most 1, the combined terrain
    is never negative and at most twice the shape, and it is exactly 0 at
    and beyond the volcano radius. *)
Theorem combined_terrain_range (d details : R) :
  0 <= d -> -1 <= details <= 1 ->
  0 <= combined_terrain d details <= 2 * base_volcano_shape d /\
  (VOLCANO_RADIUS <= d -> combined_terrain d details = 0).
Proof.
  intros Hd [Hl Hu]. unfold combined_terrain.
  pose proof (base_nonneg d) as Hb. split.
  - assert (0 <= base_volcano_shape d * (1 + details))
      by (apply Rmult_le_pos; lra).
    assert (0 <= base_volcano_shape d * (1 - details))
      by (apply Rmult_le_pos; lra).
    lra.
  - intros Hv. rewrite (base_outside d Hv). lra.
Qed.

Lemma combined_terrain_range_witness :
  (0 <= 1 / 4 /\ -1 <= 2 / 25 <= 1) /\
  (0 <= combined_terrain (1 / 4) (2 / 25) <= 2 * base_volcano_shape (1 / 4) /\
   (VOLCANO_RADIUS <= 1 / 4 -> combined_terrain (1 / 4) (2 / 25) = 0)).
Proof.
  assert (H : 0 <= 1 / 4) by lra. assert (H' : -1 <= 2 / 25 <= 1) by lra.
  split; [split; assumption | exact (combined_terrain_range (1 / 4) (2 / 25) H H')].
Defined.


End ShapeMore.

(** ** More on the normalizer *)

Module NormalizerMore.
Import Normalizer NormalizerFacts Lqa.

Lemma foldl_Qmin_attained (vs : list Q) (v : Q) :
  exists u, u ∈ v :: vs /\ u == foldl Qmin v vs.
Proof.
  revert v; induction vs as [|a vs IH]; intros v; cbn [foldl].
  - exists v. split; [left | reflexivity].
  - destruct (IH (Qmin v a)) as (u & Hu & Eu).
    apply elem_of_cons in Hu as [->|Hu].
    + destruct (Q.min_spec v a) as [[_ E]|[_ E]].
      * exists v. split; [left | rewrite <- Eu; symmetry; exact E].
      * exists a. split; [right; left | rewrite <- Eu; symmetry; exact E].
    + exists u. split; [right; right; assumption | assumption].
Qed.

Lemma foldl_Qmax_attained (vs : list Q) (v : Q) :
  exists u, u ∈ v :: vs /\ u == foldl Qmax v vs.
Proof.
  revert v; induction vs as [|a vs IH]; intros v; cbn [foldl].
  - exists v. split; [left | reflexivity].
  - destruct (IH (Qmax v a)) as (u & Hu & Eu).
    apply elem_of_cons in Hu as [->|Hu].
    + destruct (Q.max_spec v a) as [[_ E]|[_ E]].
      * exists a. split; [right; left | rewrite <- Eu; symmetry; exact E].
      * exists v. split; [left | rewrite <- Eu; symmetry; exact E].
    + exists u. split; [right; right; assumption | assumption].
Qed.

Lemma concat_elem (a : list (list Q)) (q : Q) :
  q ∈ concat a -> exists row, row ∈ a /\ q ∈ row.
Proof.
  intros Hq. apply list_elem_of_In, in_concat in Hq as (row & Hrow & Hq).
  exists row. split; apply list_elem_of_In; assumption.
Qed.

Lemma np_min_attained (a : list (list Q)) (lo : Q) :
  np_min a = Some lo -> exists row q, row ∈ a /\ q ∈ row /\ q == lo.
Proof.
  unfold np_min. destruct (concat a) as [|v vs] eqn:E; [discriminate|].
  intros [= <-]. destruct (foldl_Qmin_attained vs v) as (u & Hu & Eu).
  rewrite <- E in Hu. destruct (concat_elem a u Hu) as (row & Hrow & Hq).
  exists row, u. split_and!; assumption.
Qed.

Lemma np_max_attained (a : list (list Q)) (hi : Q) :
  np_max a = Some hi -> exists row q, row ∈ a /\ q ∈ row /\ q == hi.
Proof.
  unfold np_max. destruct (concat a) as [|v vs] eqn:E; [discriminate|].
  intros [= <-]. destruct (foldl_Qmax_attained vs v) as (u & Hu & Eu).
  rewrite <- E in Hu. destruct (concat_elem a u Hu) as (row & Hrow & Hq).
  exists row, u. split_and!; assumption.
Qed.

Lemma np_div_finite (a b : Q) : ~ b == 0 -> np_div a b = Fin (a / b).
Proof.
  intros Hb. unfold np_div. destruct (Qeq_bool b 0) eqn:E; [|reflexivity].
  apply Qeq_bool_iff in E. contradiction.
Qed.

(** X19: under exact arithmetic, on a grid that is not flat (minimum
    below maximum) every cell of the normalized grid is finite and lies
    between 0 and 255, some cell is 0 (where the minimum was) and some
    cell is 255 (where the maximum was). *)
Theorem normalize_range (a : list (list Q)) (lo hi : Q) :
  np_min a = Some lo -> np_max a = Some hi -> lo < hi ->
  exists out, normalize a = Some out /\
    (forall row v, row ∈ out -> v ∈ row ->
       exists q, v = Fin q /\ 0 <= q <= 255) /\
    (exists row q, row ∈ out /\ Fin q ∈ row /\ q == 0) /\
    (exists row q, row ∈ out /\ Fin q ∈ row /\ q == 255).
Proof.
  intros Hlo Hhi Hlt.
  assert (Hne : ~ hi - lo == 0) by lra.
  assert (E : normalize a =
              Some (map (map (fun v => np_div (255 * (v - lo)) (hi - lo))) a))
    by (unfold normalize; rewrite Hlo, Hhi; reflexivity).
  eexists. split; [exact E|]. split_and!.
  - intros row v Hrow Hv.
    destruct (normalize_cells a lo hi _ row v Hlo Hhi E Hrow Hv)
      as (q & [Hq1 Hq2] & ->).
    rewrite np_div_finite by assumption. eexists. split; [reflexivity|]. split.
    + apply Qle_shift_div_l; lra.
    + apply Qle_shift_div_r; lra.
  - destruct (np_min_attained a lo Hlo) as (row & q & Hrow & Hq & Eq).
    exists (map (fun v => np_div (255 * (v - lo)) (hi - lo)) row),
           (255 * (q - lo) / (hi - lo)).
    split_and!.
    + apply list_elem_of_fmap. exists row. split; [reflexivity | assumption].
    + rewrite <- (np_div_finite _ _ Hne).
      apply list_elem_of_fmap. exists q. split; [reflexivity | assumption].
    + rewrite Eq. field. assumption.
  - destruct (np_max_attained a hi Hhi) as (row & q & Hrow & Hq & Eq).
    exists (map (fun v => np_div (255 * (v - lo)) (hi - lo)) row),
           (255 * (q - lo) / (hi - lo)).
    split_and!.
    + apply list_elem_of_fmap. exists row. split; [reflexivity | assumption].
    + rewrite <- (np_div_finite _ _ Hne).
      apply list_elem_of_fmap. exists q. split; [reflexivity | assumption].
    + rewrite Eq. field. assumption.
Qed.

Lemma normalize_range_witness :
  (np_min sloped_terrain = Some 1 /\ np_max sloped_terrain = Some 5 /\ 1 < 5) /\
  exists out, normalize sloped_terrain = Some out /\
    (forall row v, row ∈ out -> v ∈ row ->
       exists q, v = Fin q /\ 0 <= q <= 255) /\
    (exists row q, row ∈ out /\ Fin q ∈ row /\ q == 0) /\
    (exists row q, row ∈ out /\ Fin q ∈ row /\ q == 255).
Proof.
  split; [repeat split|].
  exact (normalize_range sloped_terrain 1 5 eq_refl eq_refl eq_refl).
Defined.

End NormalizerMore.

(** ** From the seed to the noise value *)

Module PipelineMore.
Import Noise NoiseFacts Table TableFacts Lqa.



End PipelineMore.
